(** * calendar-tool: the ICS parser, month navigation and CSV export of
    [src/app/page.tsx], embedded as Rocq functions.

    Strings are JavaScript strings: finite sequences of UTF-16 code units.
    The regular expressions of the page are written out as the backtracking
    matchers they denote, one combinator per regex construct. *)

From Stdlib Require Import String Ascii.
From Stdlib Require Import List NArith ZArith Lia Bool Floats.
Import ListNotations.

Set Implicit Arguments.

(** ** JavaScript strings and the RegExp constructs the page uses *)

Module JS.

(** A UTF-16 code unit. *)
Definition char := N.
Definition str := list char.

(** A source-level string literal (all literals of the page are ASCII). *)
Definition lit (s : string) : str :=
  List.map N_of_ascii (list_ascii_of_string s).

Fixpoint str_eqb (a b : str) : bool :=
  match a, b with
  | [], [] => true
  | c :: a', d :: b' => N.eqb c d && str_eqb a' b'
  | _, _ => false
  end.

(** [s.slice(from, to)] for non-negative integer arguments: both ends are
    clamped to the length and an empty span gives the empty string. *)
Definition slice (s : str) (from to : nat) : str :=
  firstn (to - from) (skipn from s).

(** LineTerminator of ECMAScript: LF, CR, U+2028, U+2029.  The regex atom
    [.] (no [s] flag) matches every code unit but these. *)
Definition isLineTerminator (c : char) : bool :=
  N.eqb c 10 || N.eqb c 13 || N.eqb c 8232 || N.eqb c 8233.

(** A literal pattern at the current position; the result is the input
    left after it. *)
Fixpoint lit_at (p : str) (s : str) : option str :=
  match p with
  | [] => Some s
  | c :: p' =>
      match s with
      | [] => None
      | d :: s' => if N.eqb c d then lit_at p' s' else None
      end
  end.

(** The greedy dot-star group that ends a field pattern: nothing follows
    it, so it takes the longest run of non-terminators and never
    backtracks. *)
Fixpoint dot_star (s : str) : str :=
  match s with
  | [] => []
  | c :: s' => if isLineTerminator c then [] else c :: dot_star s'
  end.

(** The lazy any-code-unit group (class \s\S, star, question mark)
    followed by [k].  The continuation [k] is tried first; only when it
    fails is one more code unit consumed.  The result is the captured text
    and the input left after [k]. *)
Fixpoint lazy_any (k : str -> option str) (s : str) : option (str * str) :=
  match k s with
  | Some rest => Some ([], rest)
  | None =>
      match s with
      | [] => None
      | c :: s' =>
          match lazy_any k s' with
          | Some (cap, rest) => Some (c :: cap, rest)
          | None => None
          end
      end
  end.

(** An unanchored regex: the matcher [m] is tried at every start position,
    left to right (the position after the last code unit included); the
    first success is the match. *)
Fixpoint search (A : Type) (m : str -> option A) (s : str) : option A :=
  match m s with
  | Some a => Some a
  | None =>
      match s with
      | [] => None
      | _ :: s' => search m s'
      end
  end.

(** [s.includes(p)]. *)
Definition includes (p s : str) : bool :=
  match search (lit_at p) s with Some _ => true | None => false end.

(** [a || b] on strings: the empty string is falsy. *)
Definition or_else (a b : str) : str :=
  match a with [] => b | _ => a end.

(** [pieces.join(sep)]. *)
Fixpoint join (sep : str) (pieces : list str) : str :=
  match pieces with
  | [] => []
  | [p] => p
  | p :: ps => p ++ sep ++ join sep ps
  end.

End JS.

Import JS.


(** ** The ICS parser ([parseICS], page.tsx lines 92-162) *)

Record Event := mkEvent {
  summary : str;
  start : str;
  end_ : str;
  description : option str;   (* optional: [None] is unset *)
  location : option str       (* optional: [None] is unset *)
}.

Definition BEGIN_VEVENT : str := Eval cbv in lit "BEGIN:VEVENT".
Definition END_VEVENT : str := Eval cbv in lit "END:VEVENT".

(** [eventRegex], the pattern BEGIN:VEVENT, lazy any-group, END:VEVENT, tried
    at one start position: the capture group and the input after the match. *)
Definition eventRegex (s : str) : option (str * str) :=
  match lit_at BEGIN_VEVENT s with
  | Some r => lazy_any (lit_at END_VEVENT) r
  | None => None
  end.

(** [content.matchAll(eventRegex)] with the g flag: each search resumes where
    the previous match ended; the list holds group 1 of every match.  Every
    match consumes input, so a fuel of the length plus one is never used up
    ([matchAll_from_fuel] below). *)
Fixpoint matchAll_from (fuel : nat) (s : str) : list str :=
  match fuel with
  | O => []
  | S fuel' =>
      match search eventRegex s with
      | Some (cap, rest) => cap :: matchAll_from fuel' rest
      | None => []
      end
  end.

Definition matchAll (content : str) : list str :=
  matchAll_from (S (length content)) content.

(** A field pattern: a prefix matcher followed by the greedy dot-star group;
    the result is group 1. *)
Definition field_regex (prefix : str -> option str) (s : str) : option str :=
  match prefix s with
  | Some r => Some (dot_star r)
  | None => None
  end.

(** The prefix NAME, optional non-capturing group ;VALUE=DATE, then a colon.
    The optional group is greedy: it is tried first, and the matcher
    backtracks to the empty alternative when the colon does not follow. *)
Definition date_prefix (name : str) (s : str) : option str :=
  match lit_at name s with
  | Some r =>
      match
        match lit_at (lit ";VALUE=DATE") r with
        | Some r' => lit_at (lit ":") r'
        | None => None
        end
      with
      | Some rest => Some rest
      | None => lit_at (lit ":") r
      end
  | None => None
  end.

Definition summaryRegex := field_regex (lit_at (lit "SUMMARY:")).
Definition startRegex := field_regex (date_prefix (lit "DTSTART")).
Definition endRegex := field_regex (date_prefix (lit "DTEND")).
Definition descRegex := field_regex (lit_at (lit "DESCRIPTION:")).
Definition locRegex := field_regex (lit_at (lit "LOCATION:")).

(** [eventContent.match(re)] for a regex without the g flag: group 1 of the
    leftmost match, or [None] for null. *)
Definition str_match (re : str -> option str) (s : str) : option str :=
  search re s.

(** The two branches the source writes out for DTSTART and again for DTEND:
    YYYYMMDD, or YYYYMMDDTHHmmssZ read at fixed offsets. *)
Definition normalizeDate (dateStr : str) : str :=
  if Nat.eqb (length dateStr) 8 then
    slice dateStr 0 4 ++ lit "-" ++ slice dateStr 4 6 ++ lit "-" ++ slice dateStr 6 8
  else
    slice dateStr 0 4 ++ lit "-" ++ slice dateStr 4 6 ++ lit "-" ++ slice dateStr 6 8
      ++ lit " " ++ slice dateStr 9 11 ++ lit ":" ++ slice dateStr 11 13.

Definition set_summary (e : Event) (v : str) : Event :=
  mkEvent v (start e) (end_ e) (description e) (location e).
Definition set_start (e : Event) (v : str) : Event :=
  mkEvent (summary e) v (end_ e) (description e) (location e).
Definition set_end (e : Event) (v : str) : Event :=
  mkEvent (summary e) (start e) v (description e) (location e).
Definition set_description (e : Event) (v : str) : Event :=
  mkEvent (summary e) (start e) (end_ e) (Some v) (location e).
Definition set_location (e : Event) (v : str) : Event :=
  mkEvent (summary e) (start e) (end_ e) (description e) (Some v).

(** [if (m) event.f = g(m[1])]. *)
Definition when_matched (m : option str) (set : Event -> str -> Event)
    (e : Event) : Event :=
  match m with
  | Some v => set e v
  | None => e
  end.

(** The body of the for-of loop: one event per matched block. *)
Definition parseEvent (eventContent : str) : Event :=
  let event := mkEvent [] [] [] None None in
  let summaryMatch := str_match summaryRegex eventContent in
  let event := when_matched summaryMatch set_summary event in
  let startMatch := str_match startRegex eventContent in
  let event := when_matched startMatch (fun e v => set_start e (normalizeDate v)) event in
  let endMatch := str_match endRegex eventContent in
  let event := when_matched endMatch (fun e v => set_end e (normalizeDate v)) event in
  let descMatch := str_match descRegex eventContent in
  let event := when_matched descMatch set_description event in
  let locMatch := str_match locRegex eventContent in
  let event := when_matched locMatch set_location event in
  event.

(** [parseICS]: the events array starts empty and receives one push per
    match, in match order. *)
Definition parseICS (content : str) : list Event :=
  fold_left (fun events eventContent => events ++ [parseEvent eventContent])
    (matchAll content) [].

(** ** Facts about the matchers *)

Section MatcherFacts.

Lemma lit_at_sound (p s r : str) : lit_at p s = Some r -> s = p ++ r.
Proof.
  revert s; induction p as [|c p IH]; intros [|d s] H; simpl in *;
    try congruence.
  destruct (N.eqb_spec c d) as [->|]; [|discriminate].
  now rewrite (IH _ H).
Qed.

Lemma lit_at_complete (p r : str) : lit_at p (p ++ r) = Some r.
Proof.
  induction p as [|c p IH]; simpl; [reflexivity|].
  now rewrite N.eqb_refl.
Qed.


(** A literal found in [a ++ b] lies within [a], or starts in [a] (possibly
    at its very end) and has a non-empty remainder matched in [b]. *)
Lemma lit_at_split (p a b r : str) :
  lit_at p (a ++ b) = Some r ->
  (exists r', lit_at p a = Some r' /\ r = r' ++ b) \/
  (exists c p2, p = a ++ c :: p2 /\ lit_at (c :: p2) b = Some r).
Proof.
  revert a; induction p as [|c p IH]; intros a H.
  - left. exists a. simpl in *. split; congruence.
  - destruct a as [|d a].
    + right. exists c, p. split; [reflexivity | exact H].
    + simpl in H |- *. destruct (N.eqb_spec c d) as [->|]; [|discriminate].
      destruct (IH _ H) as [(r' & H1 & H2) | (c' & p2 & H1 & H2)].
      * left. eauto.
      * right. exists c', p2. split; [now rewrite H1 | exact H2].
Qed.

Lemma search_here (A : Type) (m : str -> option A) (s : str) (a : A) :
  m s = Some a -> search m s = Some a.
Proof. intros H. destruct s; simpl; now rewrite H. Qed.

Lemma search_skip (A : Type) (m : str -> option A) (c : char) (s : str) :
  m (c :: s) = None -> search m (c :: s) = search m s.
Proof. intros H. simpl. now rewrite H. Qed.

(** A successful search is a success of the matcher at some suffix. *)
Lemma search_found (A : Type) (m : str -> option A) (s : str) (a : A) :
  search m s = Some a -> exists pre suf, s = pre ++ suf /\ m suf = Some a.
Proof.
  induction s as [|c s IH]; simpl.
  - destruct (m []) eqn:E; [|discriminate].
    intros [= <-]. now exists [], [].
  - destruct (m (c :: s)) eqn:E.
    + intros [= <-]. now exists [], (c :: s).
    + intros H. destruct (IH H) as (pre & suf & -> & Hm).
      now exists (c :: pre), suf.
Qed.

Lemma search_none (A : Type) (m : str -> option A) (pre suf : str) :
  search m (pre ++ suf) = None -> m suf = None.
Proof.
  induction pre as [|c pre IH]; simpl.
  - destruct suf; simpl; destruct (m _); congruence.
  - destruct (m (c :: pre ++ suf)); [discriminate | exact IH].
Qed.

(** Two matchers that succeed at the same positions are found, or not,
    together. *)
Lemma search_none_ext (A B : Type) (m : str -> option A) (m' : str -> option B)
    (s : str) :
  (forall t, m t = None -> m' t = None) ->
  search m s = None -> search m' s = None.
Proof.
  intros Hm. induction s as [|c s IH]; simpl.
  - destruct (m []) eqn:E; [discriminate|]. now rewrite (Hm _ E).
  - destruct (m (c :: s)) eqn:E; [discriminate|]. rewrite (Hm _ E). exact IH.
Qed.

Lemma includes_false (p s : str) :
  includes p s = false <-> search (lit_at p) s = None.
Proof. unfold includes. destruct (search _ s); split; congruence. Qed.

Lemma includes_cons (p : str) (c : char) (s : str) :
  includes p (c :: s) = false ->
  lit_at p (c :: s) = None /\ includes p s = false.
Proof.
  rewrite !includes_false. cbn [search].
  destruct (lit_at p (c :: s)); [discriminate | auto].
Qed.

Lemma lazy_any_sound (k : str -> option str) (s cap rest : str) :
  lazy_any k s = Some (cap, rest) ->
  exists mid, s = cap ++ mid /\ k mid = Some rest.
Proof.
  revert cap; induction s as [|c s IH]; intros cap; simpl.
  - destruct (k []) eqn:E; [|discriminate].
    intros [= <- <-]. now exists [].
  - destruct (k (c :: s)) eqn:E.
    + intros [= <- <-]. now exists (c :: s).
    + destruct (lazy_any k s) as [[cap' rest']|] eqn:E'; [|discriminate].
      intros [= <- <-]. destruct (IH _ eq_refl) as (mid & -> & Hk).
      now exists mid.
Qed.

(** The lazy group stops at the first place where the continuation
    succeeds. *)
Lemma lazy_any_first (k : str -> option str) (cap mid rest : str) :
  (forall a b, cap = a ++ b -> b <> [] -> k (b ++ mid) = None) ->
  k mid = Some rest ->
  lazy_any k (cap ++ mid) = Some (cap, rest).
Proof.
  induction cap as [|c cap IH]; intros Hno Hk.
  - destruct mid; simpl; now rewrite Hk.
  - assert (H0 : k ((c :: cap) ++ mid) = None)
      by (apply (Hno [] (c :: cap)); [reflexivity | discriminate]).
    cbn [app lazy_any] in H0 |- *. rewrite H0, IH; auto.
    intros a b -> Hb. apply (Hno (c :: a) b); auto.
Qed.

Lemma lazy_any_none (k : str -> option str) (s : str) :
  search k s = None -> lazy_any k s = None.
Proof.
  induction s as [|c s IH]; simpl.
  - now destruct (k []).
  - destruct (k (c :: s)); [discriminate|]. intros H. now rewrite IH.
Qed.

End MatcherFacts.

(** ** Facts about block scanning *)

(** [H1 : p = a ++ c :: p2] for a literal [p] written out: every way of
    cutting [p] is tried, and [H2], the match of the remainder, is refuted by
    evaluation. *)
Ltac refute_straddle H1 H2 :=
  repeat
    match type of H1 with
    | _ = ?a ++ _ :: _ =>
        destruct a as [|? a]; cbn [app] in H1;
        [ first [ discriminate H1
                | injection H1 as <- <-; cbn in H2; discriminate H2 ]
        | first [ discriminate H1 | injection H1 as <- H1 ] ]
    end.

Section BlockFacts.

(** BEGIN:VEVENT cannot start inside a gap and finish inside the marker that
    follows the gap. *)
Lemma begin_no_straddle (a r x : str) :
  a <> [] ->
  lit_at BEGIN_VEVENT (a ++ BEGIN_VEVENT ++ r) = Some x ->
  exists r', lit_at BEGIN_VEVENT a = Some r'.
Proof.
  intros Ha H.
  apply lit_at_split in H as [(r' & H1 & _) | (c & p2 & H1 & H2)]; [eauto|].
  exfalso. unfold BEGIN_VEVENT in H1, H2.
  destruct a as [|d a]; [congruence|].
  cbn [app] in H1. injection H1 as <- H1.
  refute_straddle H1 H2.
Qed.

(** Nor can END:VEVENT start inside a body and finish inside the marker
    that closes the body. *)
Lemma end_no_straddle (a r x : str) :
  a <> [] ->
  lit_at END_VEVENT (a ++ END_VEVENT ++ r) = Some x ->
  exists r', lit_at END_VEVENT a = Some r'.
Proof.
  intros Ha H.
  apply lit_at_split in H as [(r' & H1 & _) | (c & p2 & H1 & H2)]; [eauto|].
  exfalso. unfold END_VEVENT in H1, H2.
  destruct a as [|d a]; [congruence|].
  cbn [app] in H1. injection H1 as <- H1.
  refute_straddle H1 H2.
Qed.


Lemma eventRegex_sound (s cap rest : str) :
  eventRegex s = Some (cap, rest) ->
  s = BEGIN_VEVENT ++ cap ++ END_VEVENT ++ rest.
Proof.
  unfold eventRegex. destruct (lit_at BEGIN_VEVENT s) as [r|] eqn:E; [|discriminate].
  intros H. apply lazy_any_sound in H as (mid & -> & Hk).
  apply lit_at_sound in E, Hk. now subst.
Qed.

Lemma search_eventRegex_shorter (s cap rest : str) :
  search eventRegex s = Some (cap, rest) -> length rest < length s.
Proof.
  intros H. apply search_found in H as (pre & suf & -> & H).
  apply eventRegex_sound in H as ->.
  rewrite !length_app. unfold BEGIN_VEVENT. simpl. lia.
Qed.

(** Any fuel above the length gives the same matches. *)
Lemma matchAll_from_stable (n m : nat) (s : str) :
  length s < n -> length s < m -> matchAll_from n s = matchAll_from m s.
Proof.
  revert m s; induction n as [|n IH]; intros [|m] s Hn Hm; try lia.
  simpl. destruct (search eventRegex s) as [[cap rest]|] eqn:E; [|reflexivity].
  apply search_eventRegex_shorter in E.
  f_equal. apply IH; lia.
Qed.

Lemma matchAll_from_fuel (n : nat) (s : str) :
  length s < n -> matchAll_from n s = matchAll s.
Proof. intros H. apply matchAll_from_stable; [exact H | lia]. Qed.

(** The loop of [matchAll], unrolled once. *)
Lemma matchAll_eq (s : str) :
  matchAll s =
  match search eventRegex s with
  | Some (cap, rest) => cap :: matchAll rest
  | None => []
  end.
Proof.
  unfold matchAll at 1. cbn [matchAll_from].
  destruct (search eventRegex s) as [[cap rest]|] eqn:E; [|reflexivity].
  apply search_eventRegex_shorter in E.
  f_equal. apply matchAll_from_fuel. exact E.
Qed.

Lemma push_loop_map (A B : Type) (f : A -> B) (l : list A) (acc : list B) :
  fold_left (fun out x => out ++ [f x]) l acc = acc ++ List.map f l.
Proof.
  revert acc; induction l as [|x l IH]; intros acc; simpl.
  - now rewrite app_nil_r.
  - rewrite IH, <- app_assoc. reflexivity.
Qed.

Lemma parseICS_map (content : str) :
  parseICS content = List.map parseEvent (matchAll content).
Proof. unfold parseICS. now rewrite push_loop_map. Qed.

Lemma eventRegex_no_begin (s : str) :
  lit_at BEGIN_VEVENT s = None -> eventRegex s = None.
Proof. unfold eventRegex. now intros ->. Qed.

Lemma search_eventRegex_no_begin (s : str) :
  includes BEGIN_VEVENT s = false -> search eventRegex s = None.
Proof.
  rewrite includes_false. apply search_none_ext, eventRegex_no_begin.
Qed.


End BlockFacts.

(** ** Blocks, as the specification words them *)

(** The text [t] begins with a block: a BEGIN:VEVENT marker with an
    END:VEVENT marker somewhere after it. *)
Definition starts_block (t : str) : Prop :=
  exists body rest, t = BEGIN_VEVENT ++ body ++ END_VEVENT ++ rest.

(** [Blocks s bodies]: [bodies] are, in source order, the texts of the
    non-overlapping substrings of [s] bounded by a BEGIN:VEVENT marker and the
    next END:VEVENT marker, located from left to right. *)
Inductive Blocks : str -> list str -> Prop :=
| Blocks_done (s : str) :
    (forall pre t, s = pre ++ t -> ~ starts_block t) ->
    Blocks s []
| Blocks_next (pre body rest : str) (bodies : list str) :
    (* no block starts before this one *)
    (forall x y, pre = x ++ y -> y <> [] ->
       ~ starts_block (y ++ BEGIN_VEVENT ++ body ++ END_VEVENT ++ rest)) ->
    (* the closing marker is the next one after the opening marker *)
    (forall x y, body = x ++ y -> y <> [] ->
       forall r, y ++ END_VEVENT ++ rest <> END_VEVENT ++ r) ->
    (* the scan resumes after the closing marker *)
    Blocks rest bodies ->
    Blocks (pre ++ BEGIN_VEVENT ++ body ++ END_VEVENT ++ rest) (body :: bodies).

(** A document written block by block: before each block a gap, after the
    last block a tail. *)
Fixpoint document (blocks : list (str * str)) (tail : str) : str :=
  match blocks with
  | [] => tail
  | (gap, body) :: blocks' =>
      gap ++ BEGIN_VEVENT ++ body ++ END_VEVENT ++ document blocks' tail
  end.

(** The gap holds no opening marker and the body no closing marker. *)
Definition well_formed_block (b : str * str) : Prop :=
  includes BEGIN_VEVENT (fst b) = false /\ includes END_VEVENT (snd b) = false.

Section BlocksRefinement.

Lemma search_leftmost (A : Type) (m : str -> option A) (s : str) (a : A) :
  search m s = Some a ->
  exists pre suf, s = pre ++ suf /\ m suf = Some a /\
    forall x y, pre = x ++ y -> y <> [] -> m (y ++ suf) = None.
Proof.
  induction s as [|c s IH]; simpl.
  - destruct (m []) eqn:E; [|discriminate].
    intros [= <-]. exists [], []. repeat split; auto.
    intros [|] [|]; simpl; congruence.
  - destruct (m (c :: s)) eqn:E.
    + intros [= <-]. exists [], (c :: s). repeat split; auto.
      intros [|] [|]; simpl; congruence.
    + intros H. destruct (IH H) as (pre & suf & -> & Hm & Hleft).
      exists (c :: pre), suf. repeat split; auto.
      intros [|d x] y Hxy Hy.
      * simpl in Hxy. subst y. exact E.
      * injection Hxy as <- Hxy. eauto.
Qed.

Lemma lazy_any_minimal (k : str -> option str) (s cap rest : str) :
  lazy_any k s = Some (cap, rest) ->
  exists mid, s = cap ++ mid /\ k mid = Some rest /\
    forall x y, cap = x ++ y -> y <> [] -> k (y ++ mid) = None.
Proof.
  revert cap; induction s as [|c s IH]; intros cap; simpl.
  - destruct (k []) eqn:E; [|discriminate].
    intros [= <- <-]. exists []. repeat split; auto.
    intros [|] [|]; simpl; congruence.
  - destruct (k (c :: s)) eqn:E.
    + intros [= <- <-]. exists (c :: s). repeat split; auto.
      intros [|] [|]; simpl; congruence.
    + destruct (lazy_any k s) as [[cap' rest']|] eqn:E'; [|discriminate].
      intros [= <- <-].
      destruct (IH _ eq_refl) as (mid & -> & Hk & Hmin).
      exists mid. repeat split; auto.
      intros [|d x] y Hxy Hy.
      * simpl in Hxy. subst y. exact E.
      * injection Hxy as <- Hxy. eauto.
Qed.

Lemma lazy_any_complete (k : str -> option str) (cap mid rest : str) :
  k mid = Some rest -> lazy_any k (cap ++ mid) <> None.
Proof.
  intros Hk. induction cap as [|c cap IH].
  - destruct mid; simpl; now rewrite Hk.
  - cbn [app lazy_any]. destruct (k (c :: cap ++ mid)); [discriminate|].
    destruct (lazy_any k (cap ++ mid)) as [[? ?]|]; [discriminate | exact IH].
Qed.

Lemma eventRegex_complete (t : str) :
  starts_block t -> eventRegex t <> None.
Proof.
  intros (body & rest & ->). unfold eventRegex.
  rewrite lit_at_complete.
  apply lazy_any_complete with (rest := rest), lit_at_complete.
Qed.

Lemma Blocks_matchAll_from (n : nat) (s : str) :
  length s < n -> Blocks s (matchAll s).
Proof.
  revert s; induction n as [|n IH]; intros s Hn; [lia|].
  rewrite matchAll_eq.
  destruct (search eventRegex s) as [[cap rest]|] eqn:E.
  - pose proof (search_eventRegex_shorter _ E) as Hlen.
    apply search_leftmost in E as (pre & suf & -> & Hm & Hleft).
    unfold eventRegex in Hm.
    destruct (lit_at BEGIN_VEVENT suf) as [r|] eqn:Eb; [|discriminate].
    apply lit_at_sound in Eb as ->.
    apply lazy_any_minimal in Hm as (mid & -> & Hk & Hmin).
    apply lit_at_sound in Hk as ->.
    apply Blocks_next.
    + intros x y Hxy Hy Hblock.
      apply eventRegex_complete in Hblock. apply Hblock.
      apply (Hleft x y Hxy Hy).
    + intros x y Hxy Hy r Heq.
      specialize (Hmin x y Hxy Hy). rewrite Heq, lit_at_complete in Hmin.
      discriminate.
    + apply IH. lia.
  - apply Blocks_done. intros pre t -> Hblock.
    apply eventRegex_complete in Hblock. apply Hblock.
    apply (search_none _ _ _ E).
Qed.

Lemma Blocks_matchAll (s : str) : Blocks s (matchAll s).
Proof. apply (Blocks_matchAll_from (n := S (length s))). lia. Qed.

Lemma search_none_everywhere (A : Type) (m : str -> option A) (s : str) :
  (forall pre t, s = pre ++ t -> m t = None) -> search m s = None.
Proof.
  induction s as [|c s IH]; intros H; cbn [search].
  - now rewrite (H [] [] eq_refl).
  - rewrite (H [] (c :: s) eq_refl). apply IH.
    intros pre t ->. now apply (H (c :: pre) t).
Qed.

Lemma eventRegex_not_block (t : str) : ~ starts_block t -> eventRegex t = None.
Proof.
  intros H. destruct (eventRegex t) as [[cap rest]|] eqn:E; [|reflexivity].
  exfalso. apply H. exists cap, rest. now apply eventRegex_sound.
Qed.

(** The relation determines the bodies: they are the matches of the scan. *)
Lemma Blocks_unique (s : str) (bodies : list str) :
  Blocks s bodies -> matchAll s = bodies.
Proof.
  induction 1 as [s Hnone | pre body rest bodies Hleft Hnext _ IH];
    rewrite matchAll_eq.
  - rewrite search_none_everywhere; [reflexivity|].
    intros pre t Hs. apply eventRegex_not_block. now apply (Hnone pre).
  - assert (Hhere : eventRegex (BEGIN_VEVENT ++ body ++ END_VEVENT ++ rest)
                    = Some (body, rest)).
    { unfold eventRegex. rewrite lit_at_complete.
      apply lazy_any_first; [|apply lit_at_complete].
      intros a b Hab Hb.
      destruct (lit_at END_VEVENT (b ++ END_VEVENT ++ rest)) as [r|] eqn:E;
        [|reflexivity].
      apply lit_at_sound in E. now destruct (Hnext a b Hab Hb r). }
    assert (Hsearch : search eventRegex
                        (pre ++ BEGIN_VEVENT ++ body ++ END_VEVENT ++ rest)
                      = Some (body, rest)).
    { clear IH. induction pre as [|c pre IHpre].
      - now apply search_here.
      - cbn [app]. rewrite search_skip.
        + apply IHpre. intros x y -> Hy. now apply (Hleft (c :: x) y).
        + apply eventRegex_not_block.
          apply (Hleft [] (c :: pre)); [reflexivity | discriminate]. }
    now rewrite Hsearch, IH.
Qed.

Lemma search_eventRegex_block (gap body rest : str) :
  includes BEGIN_VEVENT gap = false ->
  includes END_VEVENT body = false ->
  search eventRegex (gap ++ BEGIN_VEVENT ++ body ++ END_VEVENT ++ rest)
  = Some (body, rest).
Proof.
  intros Hgap Hbody. induction gap as [|c gap IH].
  - apply search_here. unfold eventRegex. cbn [app].
    rewrite lit_at_complete.
    apply lazy_any_first; [|apply lit_at_complete].
    intros a b -> Hb.
    destruct (lit_at END_VEVENT (b ++ END_VEVENT ++ rest)) eqn:E; [|reflexivity].
    apply end_no_straddle in E as (r' & E); [|exact Hb].
    apply includes_false in Hbody.
    apply search_none in Hbody. congruence.
  - apply includes_cons in Hgap as (Hc & Hgap).
    cbn [app]. rewrite search_skip; [auto|].
    apply eventRegex_no_begin.
    destruct (lit_at BEGIN_VEVENT (c :: gap ++ BEGIN_VEVENT ++ body ++ END_VEVENT ++ rest))
      eqn:E; [|reflexivity].
    apply (begin_no_straddle (a := c :: gap)) in E as (r' & E); [|discriminate].
    congruence.
Qed.

Lemma matchAll_document (blocks : list (str * str)) (tail : str) :
  Forall well_formed_block blocks ->
  includes BEGIN_VEVENT tail = false ->
  matchAll (document blocks tail) = List.map snd blocks.
Proof.
  intros Hwf Htail. induction Hwf as [|[gap body] blocks [Hg Hb] _ IH].
  - simpl. rewrite matchAll_eq.
    now rewrite search_eventRegex_no_begin.
  - cbn [document List.map snd]. rewrite matchAll_eq.
    rewrite search_eventRegex_block by assumption.
    now rewrite IH.
Qed.

End BlocksRefinement.

(** C1. For every text, [parseICS] returns one Event per block the scan
    finds (the non-overlapping, non-greedy blocks of [Blocks]), in the order
    of the blocks; and a document written as N well-formed blocks yields
    exactly the N Events of its bodies, in source order. *)
Theorem parseICS_one_event_per_block :
  (forall content : str, exists bodies, Blocks content bodies) /\
  (forall (content : str) (bodies : list str),
     Blocks content bodies ->
     parseICS content = List.map parseEvent bodies /\
     length (parseICS content) = length bodies) /\
  (forall (blocks : list (str * str)) (tail : str),
     Forall well_formed_block blocks ->
     includes BEGIN_VEVENT tail = false ->
     parseICS (document blocks tail)
       = List.map (fun b => parseEvent (snd b)) blocks /\
     length (parseICS (document blocks tail)) = length blocks).
Proof.
  split; [|split].
  - intros content. exists (matchAll content). apply Blocks_matchAll.
  - intros content bodies H. apply Blocks_unique in H as <-.
    now rewrite parseICS_map, length_map.
  - intros blocks tail Hwf Htail.
    rewrite parseICS_map, matchAll_document by assumption.
    rewrite map_map, !length_map. auto.
Qed.

(** A concrete two-event calendar is an instance of C1. *)
Lemma parseICS_one_event_per_block_witness :
  length
    (parseICS
       (document
          [ (lit "BEGIN:VCALENDAR" ++ [10%N], [10%N] ++ lit "SUMMARY:a" ++ [10%N]);
            ([10%N], [10%N] ++ lit "SUMMARY:b" ++ [10%N]) ]
          ([10%N] ++ lit "END:VCALENDAR")))
  = 2.
Proof.
  refine (proj2 (proj2 (proj2 parseICS_one_event_per_block) _ _ _ _)).
  - repeat constructor.
  - reflexivity.
Defined.

(** ** Date normalisation *)

(** The code units of [s] at the given offsets; an offset past the end
    contributes nothing. *)
Definition chars_at (s : str) (offsets : list nat) : str :=
  flat_map (fun i => match nth_error s i with Some c => [c] | None => [] end)
    offsets.

Section NormalizeFacts.

Lemma chars_at_shift (c : char) (s : str) (a n : nat) :
  chars_at (c :: s) (seq (S a) n) = chars_at s (seq a n).
Proof.
  revert a; induction n as [|n IH]; intros a; [reflexivity|].
  cbn [seq]. unfold chars_at in *. cbn [flat_map nth_error].
  now rewrite IH.
Qed.

Lemma chars_at_nil (offsets : list nat) : chars_at [] offsets = [].
Proof.
  induction offsets as [|i l IH]; [reflexivity|].
  unfold chars_at in *. cbn [flat_map]. rewrite IH. now destruct i.
Qed.

(** [slice] read offset by offset. *)
Lemma slice_chars_at (s : str) (from to : nat) :
  slice s from to = chars_at s (seq from (to - from)).
Proof.
  unfold slice. generalize (to - from) as n. revert from.
  induction s as [|c s IH]; intros from n.
  - rewrite skipn_nil, firstn_nil, chars_at_nil. reflexivity.
  - destruct from as [|from].
    + destruct n as [|n]; [reflexivity|].
      cbn [skipn firstn seq]. unfold chars_at at 1. cbn [flat_map nth_error].
      fold (chars_at (c :: s) (seq 1 n)). rewrite chars_at_shift, <- IH.
      reflexivity.
    + cbn [skipn]. rewrite chars_at_shift. apply IH.
Qed.

Lemma slice_length (s : str) (from to : nat) :
  length (slice s from to) = Nat.min (to - from) (length s - from).
Proof. unfold slice. now rewrite length_firstn, length_skipn. Qed.

Lemma start_of_match (eventContent tok : str) :
  str_match startRegex eventContent = Some tok ->
  start (parseEvent eventContent) = normalizeDate tok.
Proof.
  unfold parseEvent. intros ->.
  destruct (str_match summaryRegex _), (str_match endRegex _),
    (str_match descRegex _), (str_match locRegex _); reflexivity.
Qed.

Lemma end_of_match (eventContent tok : str) :
  str_match endRegex eventContent = Some tok ->
  end_ (parseEvent eventContent) = normalizeDate tok.
Proof.
  unfold parseEvent. intros ->.
  destruct (str_match summaryRegex _), (str_match startRegex _),
    (str_match descRegex _), (str_match locRegex _); reflexivity.
Qed.

End NormalizeFacts.

(** C2. A captured DTSTART/DTEND token of exactly 8 code units becomes its
    offsets 0-3, 4-5, 6-7 joined by hyphens; a token of any other length
    becomes the same date part, a space, offsets 9-10 (the hour), a colon and
    offsets 11-12 (the minute), offset 8 being skipped.  The token 20240315
    gives 2024-03-15 and 20240315T143000Z gives 2024-03-15 14:30. *)
Theorem normalizeDate_offsets (tok : str) :
  (forall eventContent,
     str_match startRegex eventContent = Some tok ->
     start (parseEvent eventContent) = normalizeDate tok) /\
  (forall eventContent,
     str_match endRegex eventContent = Some tok ->
     end_ (parseEvent eventContent) = normalizeDate tok) /\
  (length tok = 8 ->
     normalizeDate tok
     = chars_at tok [0; 1; 2; 3] ++ lit "-" ++ chars_at tok [4; 5] ++ lit "-"
         ++ chars_at tok [6; 7]
     /\ length (normalizeDate tok) = 10) /\
  (length tok <> 8 ->
     normalizeDate tok
     = chars_at tok [0; 1; 2; 3] ++ lit "-" ++ chars_at tok [4; 5] ++ lit "-"
         ++ chars_at tok [6; 7] ++ lit " " ++ chars_at tok [9; 10] ++ lit ":"
         ++ chars_at tok [11; 12]) /\
  (13 <= length tok -> length (normalizeDate tok) = 16) /\
  normalizeDate (lit "20240315") = lit "2024-03-15" /\
  normalizeDate (lit "20240315T143000Z") = lit "2024-03-15 14:30".
Proof.
  split; [exact (fun c => @start_of_match c tok)|].
  split; [exact (fun c => @end_of_match c tok)|].
  split; [|split; [|split; [|split; reflexivity]]].
  - intros H. unfold normalizeDate. rewrite H. cbn [Nat.eqb].
    rewrite !slice_chars_at. split; [reflexivity|].
    do 9 (destruct tok as [|? tok]; try discriminate H). reflexivity.
  - intros H. unfold normalizeDate.
    destruct (Nat.eqb_spec (length tok) 8) as [E|_]; [contradiction|].
    rewrite !slice_chars_at. reflexivity.
  - intros H. unfold normalizeDate.
    destruct (Nat.eqb_spec (length tok) 8) as [E|_]; [lia|].
    rewrite !length_app, !slice_length. cbn [lit List.map list_ascii_of_string length].
    lia.
Qed.

(** C2 at the all-day token of the specification. *)
Lemma normalizeDate_offsets_witness :
  normalizeDate (lit "20240315")
  = chars_at (lit "20240315") [0; 1; 2; 3] ++ lit "-"
      ++ chars_at (lit "20240315") [4; 5] ++ lit "-"
      ++ chars_at (lit "20240315") [6; 7]
  /\ length (normalizeDate (lit "20240315")) = 10.
Proof.
  exact (proj1 (proj2 (proj2 (normalizeDate_offsets (lit "20240315")))) eq_refl).
Defined.

(** ** Field extraction, line by line *)

(** The physical lines of a text: the maximal runs of code units that are not
    line terminators (a CR LF pair leaves an empty line between its two
    code units). *)
Fixpoint lines (s : str) : list str :=
  match s with
  | [] => [[]]
  | c :: s' =>
      if isLineTerminator c then [] :: lines s'
      else
        match lines s' with
        | l :: ls => (c :: l) :: ls
        | [] => [[c]]
        end
  end.

(** The first line in which the pattern prefix is found, and what is left of
    that line after it. *)
Fixpoint first_line_matching (prefix : str -> option str) (ls : list str)
    : option str :=
  match ls with
  | [] => None
  | l :: ls' =>
      match search prefix l with
      | Some remainder => Some remainder
      | None => first_line_matching prefix ls'
      end
  end.

(** A prefix matcher that needs at least one code unit and never reads a
    line terminator: on the first line of a text it behaves as on the text. *)
Definition within_line (prefix : str -> option str) : Prop :=
  prefix [] = None /\
  forall s, prefix (dot_star s) = option_map dot_star (prefix s).

Definition no_terminator (p : str) : bool :=
  forallb (fun c => negb (isLineTerminator c)) p.

Section LineFacts.

Lemma lit_at_dot_star (p s : str) :
  no_terminator p = true ->
  lit_at p (dot_star s) = option_map dot_star (lit_at p s).
Proof.
  revert s; induction p as [|c p IH]; intros s Hp; [reflexivity|].
  cbn [no_terminator forallb] in Hp. apply andb_prop in Hp as [Hc Hp].
  destruct s as [|d s]; [reflexivity|].
  cbn [dot_star]. destruct (isLineTerminator d) eqn:Ed.
  - cbn [lit_at]. destruct (N.eqb_spec c d) as [->|]; [|reflexivity].
    rewrite Ed in Hc. discriminate.
  - cbn [lit_at]. destruct (N.eqb c d); [|reflexivity].
    now apply IH.
Qed.

Lemma lit_at_within_line (c : char) (p : str) :
  no_terminator (c :: p) = true -> within_line (lit_at (c :: p)).
Proof. intros H. split; [reflexivity | intros s; now apply lit_at_dot_star]. Qed.

Lemma date_prefix_within_line (c : char) (name : str) :
  no_terminator (c :: name) = true -> within_line (date_prefix (c :: name)).
Proof.
  intros H. split; [reflexivity|]. intros s. unfold date_prefix.
  rewrite (lit_at_dot_star _ s H).
  destruct (lit_at (c :: name) s) as [r|]; [|reflexivity].
  cbn [option_map]. rewrite !(lit_at_dot_star _ r) by reflexivity.
  destruct (lit_at (lit ";VALUE=DATE") r) as [r'|]; cbn [option_map].
  - rewrite (lit_at_dot_star _ r') by reflexivity.
    destruct (lit_at (lit ":") r'); [reflexivity|].
    cbn [option_map]. now destruct (lit_at (lit ":") r).
  - now destruct (lit_at (lit ":") r).
Qed.

Lemma lines_head (s : str) : exists ls, lines s = dot_star s :: ls.
Proof.
  induction s as [|c s (ls & IH)]; cbn [lines dot_star].
  - now exists [].
  - destruct (isLineTerminator c); [now exists (lines s)|].
    rewrite IH. now exists ls.
Qed.

(** The unanchored field regex over a block finds what a scan of the
    block's lines finds. *)
Lemma field_regex_lines (prefix : str -> option str) (b : str) :
  within_line prefix ->
  str_match (field_regex prefix) b = first_line_matching prefix (lines b).
Proof.
  intros [Hnil Hline]. unfold str_match.
  induction b as [|c b IH].
  - cbn. unfold field_regex. now rewrite Hnil.
  - cbn [search]. unfold field_regex at 1.
    destruct (prefix (c :: b)) as [r|] eqn:E.
    + destruct (lines_head (c :: b)) as (ls & ->).
      cbn [first_line_matching].
      rewrite (search_here prefix (dot_star (c :: b)) (a := dot_star r));
        [reflexivity|].
      now rewrite Hline, E.
    + rewrite IH. cbn [lines].
      destruct (isLineTerminator c) eqn:Ec.
      * cbn [first_line_matching search]. now rewrite Hnil.
      * destruct (lines_head b) as (ls & Hb). rewrite Hb.
        cbn [first_line_matching].
        rewrite search_skip; [reflexivity|].
        specialize (Hline (c :: b)). cbn [dot_star] in Hline.
        rewrite Ec, E in Hline. exact Hline.
Qed.

(** What one field regex finds decides one field alone. *)
Lemma parseEvent_fields (b : str) :
  summary (parseEvent b)
    = match str_match summaryRegex b with Some v => v | None => [] end /\
  start (parseEvent b)
    = match str_match startRegex b with
      | Some tok => normalizeDate tok
      | None => []
      end /\
  end_ (parseEvent b)
    = match str_match endRegex b with
      | Some tok => normalizeDate tok
      | None => []
      end /\
  description (parseEvent b) = str_match descRegex b /\
  location (parseEvent b) = str_match locRegex b.
Proof.
  unfold parseEvent.
  destruct (str_match summaryRegex b), (str_match startRegex b),
    (str_match endRegex b), (str_match descRegex b),
    (str_match locRegex b); cbn; auto.
Qed.

Lemma dot_star_line (v rest : str) (c : char) :
  no_terminator v = true -> isLineTerminator c = true ->
  dot_star (v ++ c :: rest) = v.
Proof.
  intros Hv Hc. induction v as [|d v IH]; cbn [app dot_star].
  - now rewrite Hc.
  - cbn [no_terminator forallb] in Hv. apply andb_prop in Hv as [Hd Hv].
    apply negb_true_iff in Hd. rewrite Hd. f_equal. now apply IH.
Qed.

(** A value found by the line scan is the remainder of a line that reads
    text, pattern, value; no earlier line holds the pattern. *)
Lemma first_line_matching_lit (p : str) (ls : list str) (v : str) :
  first_line_matching (lit_at p) ls = Some v ->
  exists before l after x,
    ls = before ++ l :: after /\ l = x ++ p ++ v /\
    Forall (fun l' => includes p l' = false) before.
Proof.
  induction ls as [|l ls IH]; cbn [first_line_matching]; [discriminate|].
  destruct (search (lit_at p) l) as [r|] eqn:E.
  - intros [= ->]. apply search_found in E as (x & suf & -> & E).
    apply lit_at_sound in E as ->.
    now exists [], (x ++ p ++ v), ls, x.
  - intros H. destruct (IH H) as (before & l' & after & x & -> & -> & Hb).
    exists (l :: before), (x ++ p ++ v), after, x.
    repeat split; auto. constructor; [|exact Hb].
    now apply includes_false.
Qed.

End LineFacts.

(** ** Degradation: missing markers and missing fields *)


Section Degradation.

Variable rest : str.
Hypothesis no_end : includes END_VEVENT rest = false.







End Degradation.

Section Defaults.


Lemma date_absent (name b : str) :
  includes name b = false -> str_match (field_regex (date_prefix name)) b = None.
Proof.
  rewrite includes_false. apply search_none_ext.
  intros t Ht. unfold field_regex, date_prefix. now rewrite Ht.
Qed.

End Defaults.




(** ** Date lines with property parameters *)

Section DateParameters.

Lemma lit_at_cat (p q s : str) :
  lit_at (p ++ q) s
  = match lit_at p s with Some r => lit_at q r | None => None end.
Proof.
  revert s; induction p as [|c p IH]; intros s; [reflexivity|].
  destruct s as [|d s]; [reflexivity|].
  cbn [app lit_at]. now destruct (N.eqb c d).
Qed.

(** The two texts the date pattern stands for. *)
Lemma date_prefix_cases (name t x : str) :
  date_prefix name t = Some x ->
  lit_at (name ++ lit ":") t = Some x \/
  lit_at (name ++ lit ";VALUE=DATE:") t = Some x.
Proof.
  unfold date_prefix. rewrite !lit_at_cat.
  destruct (lit_at name t) as [r|]; [|discriminate].
  change (lit ";VALUE=DATE:") with (lit ";VALUE=DATE" ++ lit ":").
  rewrite lit_at_cat.
  destruct (lit_at (lit ";VALUE=DATE") r) as [r'|]; [|auto].
  destruct (lit_at (lit ":") r'); auto.
Qed.

Lemma date_prefix_plain (name t x : str) :
  lit_at (name ++ lit ":") t = Some x -> date_prefix name t <> None.
Proof.
  unfold date_prefix. rewrite lit_at_cat.
  destruct (lit_at name t) as [r|]; [|discriminate].
  intros ->.
  now destruct (match lit_at (lit ";VALUE=DATE") r with
                | Some r' => lit_at (lit ":") r'
                | None => None
                end).
Qed.

Lemma date_prefix_value_date (name t x : str) :
  lit_at (name ++ lit ";VALUE=DATE:") t = Some x -> date_prefix name t <> None.
Proof.
  unfold date_prefix. rewrite lit_at_cat.
  destruct (lit_at name t) as [r|]; [|discriminate].
  change (lit ";VALUE=DATE:") with (lit ";VALUE=DATE" ++ lit ":").
  rewrite lit_at_cat.
  destruct (lit_at (lit ";VALUE=DATE") r) as [r'|]; [|discriminate].
  now intros ->.
Qed.

(** At a property name followed by a parameter list that is not exactly
    ;VALUE=DATE, the date pattern fails. *)
Lemma date_prefix_other_parameter (name rest : str) :
  lit_at (lit "VALUE=DATE:") rest = None ->
  date_prefix name (name ++ lit ";" ++ rest) = None.
Proof.
  intros H. unfold date_prefix. rewrite lit_at_complete.
  change (lit ";VALUE=DATE") with (lit ";" ++ lit "VALUE=DATE").
  rewrite lit_at_cat, lit_at_complete.
  change (lit "VALUE=DATE:") with (lit "VALUE=DATE" ++ lit ":") in H.
  rewrite lit_at_cat in H.
  destruct (lit_at (lit "VALUE=DATE") rest) as [r'|]; [rewrite H|];
    reflexivity.
Qed.

Variable rest : str.
Hypothesis other_parameter : lit_at (lit "VALUE=DATE:") rest = None.

(** The start pattern cannot begin before a DTSTART; and end inside it. *)
Lemma start_no_straddle (y x : str) :
  y <> [] ->
  date_prefix (lit "DTSTART") (y ++ lit "DTSTART;" ++ rest) = Some x ->
  date_prefix (lit "DTSTART") y <> None.
Proof.
  intros Hy H. apply date_prefix_cases in H as [H|H];
    apply lit_at_split in H as [(r' & H1 & _) | (c & p2 & H1 & H2)];
    try (now apply date_prefix_plain in H1);
    try (now apply date_prefix_value_date in H1);
    exfalso; cbn in H1; destruct y as [|d y]; try congruence;
    cbn [app] in H1; injection H1 as <- H1; refute_straddle H1 H2.
Qed.

Lemma end_date_no_straddle (y x : str) :
  y <> [] ->
  date_prefix (lit "DTEND") (y ++ lit "DTEND;" ++ rest) = Some x ->
  date_prefix (lit "DTEND") y <> None.
Proof.
  intros Hy H. apply date_prefix_cases in H as [H|H];
    apply lit_at_split in H as [(r' & H1 & _) | (c & p2 & H1 & H2)];
    try (now apply date_prefix_plain in H1);
    try (now apply date_prefix_value_date in H1);
    exfalso; cbn in H1; destruct y as [|d y]; try congruence;
    cbn [app] in H1; injection H1 as <- H1; refute_straddle H1 H2.
Qed.

Lemma startRegex_unmatched (pre : str) :
  str_match startRegex pre = None ->
  str_match startRegex rest = None ->
  str_match startRegex (pre ++ lit "DTSTART;" ++ rest) = None.
Proof.
  unfold str_match, startRegex. intros Hpre Hrest.
  induction pre as [|c pre IH].
  - pose proof (date_prefix_other_parameter (lit "DTSTART") rest other_parameter) as H0.
    let l := eval cbv in (lit "DTSTART;") in change (lit "DTSTART;") with l.
    cbn [app]. rewrite search_skip.
    + do 7 (rewrite search_skip; [|reflexivity]). exact Hrest.
    + change (field_regex (date_prefix (lit "DTSTART"))
                (lit "DTSTART" ++ lit ";" ++ rest) = None).
      unfold field_regex. now rewrite H0.
  - cbn [search] in Hpre.
    destruct (field_regex (date_prefix (lit "DTSTART")) (c :: pre)) eqn:E;
      [discriminate|].
    cbn [app]. rewrite search_skip; [now apply IH|].
    unfold field_regex in *.
    destruct (date_prefix (lit "DTSTART") (c :: pre ++ lit "DTSTART;" ++ rest))
      eqn:E'; [|reflexivity].
    apply (start_no_straddle (y := c :: pre)) in E'; [|discriminate].
    destruct (date_prefix (lit "DTSTART") (c :: pre)); congruence.
Qed.

Lemma endRegex_unmatched (pre : str) :
  str_match endRegex pre = None ->
  str_match endRegex rest = None ->
  str_match endRegex (pre ++ lit "DTEND;" ++ rest) = None.
Proof.
  unfold str_match, endRegex. intros Hpre Hrest.
  induction pre as [|c pre IH].
  - pose proof (date_prefix_other_parameter (lit "DTEND") rest other_parameter) as H0.
    let l := eval cbv in (lit "DTEND;") in change (lit "DTEND;") with l.
    cbn [app]. rewrite search_skip.
    + do 5 (rewrite search_skip; [|reflexivity]). exact Hrest.
    + change (field_regex (date_prefix (lit "DTEND"))
                (lit "DTEND" ++ lit ";" ++ rest) = None).
      unfold field_regex. now rewrite H0.
  - cbn [search] in Hpre.
    destruct (field_regex (date_prefix (lit "DTEND")) (c :: pre)) eqn:E;
      [discriminate|].
    cbn [app]. rewrite search_skip; [now apply IH|].
    unfold field_regex in *.
    destruct (date_prefix (lit "DTEND") (c :: pre ++ lit "DTEND;" ++ rest))
      eqn:E'; [|reflexivity].
    apply (end_date_no_straddle (y := c :: pre)) in E'; [|discriminate].
    destruct (date_prefix (lit "DTEND") (c :: pre)); congruence.
Qed.

End DateParameters.

(** C9, as the code has it.  At a DTSTART (or DTEND) property name followed
    by a parameter list other than exactly ;VALUE=DATE, the start (or end)
    pattern fails; the field is left empty when the pattern is found nowhere
    else in the block, neither before that property name nor after it
    (inside the parameters or the value of the same line, or on a later
    line). *)
Theorem date_line_with_other_parameter (pre rest : str) :
  lit_at (lit "VALUE=DATE:") rest = None ->
  startRegex (lit "DTSTART;" ++ rest) = None /\
  endRegex (lit "DTEND;" ++ rest) = None /\
  (str_match startRegex pre = None -> str_match startRegex rest = None ->
     start (parseEvent (pre ++ lit "DTSTART;" ++ rest)) = []) /\
  (str_match endRegex pre = None -> str_match endRegex rest = None ->
     end_ (parseEvent (pre ++ lit "DTEND;" ++ rest)) = []).
Proof.
  intros H. repeat split.
  - unfold startRegex, field_regex.
    change (lit "DTSTART;") with (lit "DTSTART" ++ lit ";").
    now rewrite <- app_assoc, date_prefix_other_parameter.
  - unfold endRegex, field_regex.
    change (lit "DTEND;") with (lit "DTEND" ++ lit ";").
    now rewrite <- app_assoc, date_prefix_other_parameter.
  - intros Hpre Hrest.
    destruct (parseEvent_fields (pre ++ lit "DTSTART;" ++ rest))
      as (_ & -> & _).
    now rewrite startRegex_unmatched.
  - intros Hpre Hrest.
    destruct (parseEvent_fields (pre ++ lit "DTEND;" ++ rest))
      as (_ & _ & -> & _).
    now rewrite endRegex_unmatched.
Qed.

(** C9 at the time-zone line of the claim: the start stays empty. *)
Lemma date_line_with_other_parameter_witness :
  start
    (parseEvent
       ([10%N] ++ lit "DTSTART;" ++ lit "TZID=Europe/Zurich:20240315T090000"
          ++ [10%N]))
  = [].
Proof.
  exact (proj1 (proj2 (proj2
    (date_line_with_other_parameter [10%N]
       (lit "TZID=Europe/Zurich:20240315T090000" ++ [10%N]) eq_refl)))
    eq_refl eq_refl).
Defined.

(** C9 as stated fails: the pattern is not anchored to the beginning of a
    line, so a DTSTART line whose only parameter is X-A=DTSTART (not
    VALUE=DATE) is matched from inside the parameter value, and the start
    field is filled. *)
Lemma date_line_with_other_parameter_matched :
  lit_at (lit "VALUE=DATE:") (lit "X-A=DTSTART:20240315") = None /\
  str_match startRegex (lit "DTSTART;" ++ lit "X-A=DTSTART:20240315")
    = Some (lit "20240315") /\
  List.map start
    (parseICS
       (lit "BEGIN:VEVENT" ++ [13; 10]%N
          ++ lit "DTSTART;" ++ lit "X-A=DTSTART:20240315" ++ [13; 10]%N
          ++ lit "END:VEVENT"))
    = [lit "2024-03-15"] /\
  lit "2024-03-15" <> [].
Proof. repeat split; try reflexivity. discriminate. Qed.

(** ** Field extraction, as the specification words it *)

(** A text cut into its physical lines: every line is a run without line
    terminators, and one terminator stands between two consecutive
    lines. *)
Inductive physical_lines : str -> list str -> Prop :=
| last_line (l : str) :
    no_terminator l = true -> physical_lines l [l]
| next_line (l : str) (c : char) (rest : str) (ls : list str) :
    no_terminator l = true -> isLineTerminator c = true ->
    physical_lines rest ls -> physical_lines (l ++ c :: rest) (l :: ls).

(** One of the pattern texts stands at the beginning of [t]; [v] is what
    follows it. *)
Definition pattern_here (texts : list str) (t v : str) : Prop :=
  exists p, In p texts /\ t = p ++ v.

(** No pattern text occurs anywhere in the line. *)
Definition pattern_free (texts : list str) (l : str) : Prop :=
  forall x t v, l = x ++ t -> ~ pattern_here texts t v.

(** [v] is the remainder of the line [l] after the leftmost occurrence of a
    pattern text in it. *)
Definition remainder_of_line (texts : list str) (l v : str) : Prop :=
  exists x t,
    l = x ++ t /\ pattern_here texts t v /\
    forall x1 x2 v',
      x = x1 ++ x2 -> x2 <> [] -> ~ pattern_here texts (x2 ++ t) v'.

(** The raw value read from the first line that matches: nothing when no
    line holds a pattern text, otherwise the remainder of the first line
    that holds one. *)
Inductive first_matching_line (texts : list str)
    : list str -> option str -> Prop :=
| no_line_matches (ls : list str) :
    Forall (pattern_free texts) ls -> first_matching_line texts ls None
| line_matches (before : list str) (l : str) (after : list str) (v : str) :
    Forall (pattern_free texts) before -> remainder_of_line texts l v ->
    first_matching_line texts (before ++ l :: after) (Some v).

(** [raw] is what the first matching line gives, and nothing else is. *)
Definition taken_from (texts : list str) (ls : list str) (raw : option str)
    : Prop :=
  first_matching_line texts ls raw /\
  forall raw', first_matching_line texts ls raw' -> raw' = raw.

Section FirstLineRefinement.

(** A prefix matcher of the code and the pattern texts it stands for. *)
Variable texts : list str.
Variable prefix : str -> option str.
Hypothesis prefix_texts :
  forall t v, prefix t = Some v <-> pattern_here texts t v.

Lemma prefix_none (t : str) :
  (forall v, ~ pattern_here texts t v) -> prefix t = None.
Proof.
  intros H. destruct (prefix t) as [v|] eqn:E; [|reflexivity].
  apply prefix_texts in E. now destruct (H v).
Qed.

Lemma search_remainder (l v : str) :
  search prefix l = Some v -> remainder_of_line texts l v.
Proof.
  intros H. apply search_leftmost in H as (x & t & -> & Ht & Hleft).
  exists x, t. split; [reflexivity|]. split; [now apply prefix_texts|].
  intros x1 x2 v' Hx Hx2 Hp. apply prefix_texts in Hp.
  rewrite (Hleft x1 x2 Hx Hx2) in Hp. discriminate.
Qed.

Lemma search_pattern_free (l : str) :
  search prefix l = None -> pattern_free texts l.
Proof.
  intros H x t v -> Hp. apply prefix_texts in Hp.
  apply search_none in H. congruence.
Qed.

Lemma remainder_search (l v : str) :
  remainder_of_line texts l v -> search prefix l = Some v.
Proof.
  intros (x & t & -> & Ht & Hleft). apply prefix_texts in Ht.
  induction x as [|c x IH]; [now apply search_here|].
  cbn [app]. rewrite search_skip.
  - apply IH. intros x1 x2 v' Hx. apply (Hleft (c :: x1) x2 v').
    now rewrite Hx.
  - apply prefix_none. intros v'.
    apply (Hleft [] (c :: x) v' eq_refl). discriminate.
Qed.

Lemma pattern_free_search (l : str) :
  pattern_free texts l -> search prefix l = None.
Proof.
  intros H. apply search_none_everywhere. intros pre t ->.
  apply prefix_none. intros v. now apply (H pre t v).
Qed.

Lemma first_line_matching_first (ls : list str) :
  first_matching_line texts ls (first_line_matching prefix ls).
Proof.
  induction ls as [|l ls IH]; cbn [first_line_matching].
  - apply no_line_matches. constructor.
  - destruct (search prefix l) as [v|] eqn:E.
    + apply (@line_matches texts [] l ls v);
        [constructor | now apply search_remainder].
    + apply search_pattern_free in E.
      inversion IH as [ls' Hfree Els Eraw | before l' after v Hfree Hv Els Eraw].
      * apply no_line_matches. now constructor.
      * apply (@line_matches texts (l :: before) l' after v);
          [now constructor | exact Hv].
Qed.

Lemma first_line_matching_free (ls : list str) :
  Forall (pattern_free texts) ls -> first_line_matching prefix ls = None.
Proof.
  induction 1 as [|l ls Hl _ IH]; cbn [first_line_matching]; [reflexivity|].
  now rewrite (pattern_free_search Hl).
Qed.

Lemma first_matching_line_unique (ls : list str) (raw : option str) :
  first_matching_line texts ls raw -> raw = first_line_matching prefix ls.
Proof.
  intros [ls' Hfree | before l after v Hfree Hv].
  - symmetry. now apply first_line_matching_free.
  - induction Hfree as [|l0 before Hl0 _ IH]; cbn [app first_line_matching].
    + now rewrite (remainder_search Hv).
    + now rewrite (pattern_free_search Hl0).
Qed.

Lemma first_line_taken (ls : list str) :
  taken_from texts ls (first_line_matching prefix ls).
Proof.
  split; [apply first_line_matching_first | apply first_matching_line_unique].
Qed.

End FirstLineRefinement.

Section PatternTexts.

(** The literal pattern stands for its own text. *)
Lemma lit_at_texts (p t v : str) :
  lit_at p t = Some v <-> pattern_here [p] t v.
Proof.
  split.
  - intros H. exists p. split; [now left | now apply lit_at_sound].
  - intros (q & [<-|[]] & ->). apply lit_at_complete.
Qed.

(** The date pattern stands for two texts: the name and a colon, or the
    name, the parameter ;VALUE=DATE and a colon. *)
Lemma date_prefix_texts (name t v : str) :
  date_prefix name t = Some v <->
  pattern_here [name ++ lit ":"; name ++ lit ";VALUE=DATE:"] t v.
Proof.
  split.
  - intros H. apply date_prefix_cases in H as [H|H];
      apply lit_at_sound in H; eexists; (split; [|exact H]); cbn; auto.
  - intros (q & [<-|[<-|[]]] & ->); unfold date_prefix;
      rewrite <- app_assoc, lit_at_complete.
    + reflexivity.
    + change (lit ";VALUE=DATE:") with (lit ";VALUE=DATE" ++ lit ":").
      now rewrite <- app_assoc, !lit_at_complete.
Qed.

Lemma lines_next (l : str) (c : char) (rest : str) :
  no_terminator l = true -> isLineTerminator c = true ->
  lines (l ++ c :: rest) = l :: lines rest.
Proof.
  intros Hl Hc. induction l as [|d l IH]; cbn [app lines].
  - now rewrite Hc.
  - cbn [no_terminator forallb] in Hl. apply andb_prop in Hl as [Hd Hl].
    apply negb_true_iff in Hd. now rewrite Hd, IH.
Qed.

Lemma lines_last (l : str) : no_terminator l = true -> lines l = [l].
Proof.
  intros Hl. induction l as [|d l IH]; [reflexivity|].
  cbn [no_terminator forallb] in Hl. apply andb_prop in Hl as [Hd Hl].
  apply negb_true_iff in Hd. cbn [lines]. now rewrite Hd, IH.
Qed.

Lemma physical_lines_unique (b : str) (ls : list str) :
  physical_lines b ls -> ls = lines b.
Proof.
  induction 1 as [l Hl | l c rest ls Hl Hc _ IH].
  - symmetry. now apply lines_last.
  - rewrite lines_next by assumption. now rewrite IH.
Qed.

Lemma lines_physical (b : str) : physical_lines b (lines b).
Proof.
  induction b as [|c b IH]; cbn [lines].
  - now apply last_line.
  - destruct (isLineTerminator c) eqn:Ec.
    + now apply (@next_line [] c b (lines b)).
    + assert (Hc : forall l, no_terminator l = true ->
                no_terminator (c :: l) = true)
        by (intros l Hl; cbn [no_terminator forallb]; now rewrite Ec).
      inversion IH as [l Hl El Els | l d rest ls Hl Hd Hrest El Els].
      * apply last_line. now apply Hc.
      * apply (@next_line (c :: l) d rest ls); auto.
Qed.

(** A field line that opens the block, followed by a line terminator: the
    value is the rest of that line. *)
Lemma field_of_first_line (prefix : str -> option str) (p v rest : str)
    (c : char) :
  (forall r, prefix (p ++ r) = Some r) ->
  no_terminator v = true -> isLineTerminator c = true ->
  str_match (field_regex prefix) (p ++ v ++ c :: rest) = Some v.
Proof.
  intros Hp Hv Hc. unfold str_match. apply search_here.
  unfold field_regex. rewrite Hp. f_equal. now apply dot_star_line.
Qed.

Lemma date_prefix_plain_text (name r : str) :
  date_prefix name ((name ++ lit ":") ++ r) = Some r.
Proof. apply date_prefix_texts. exists (name ++ lit ":"). cbn; auto. Qed.

Lemma date_prefix_value_date_text (name r : str) :
  date_prefix name ((name ++ lit ";VALUE=DATE:") ++ r) = Some r.
Proof.
  apply date_prefix_texts. exists (name ++ lit ";VALUE=DATE:"). cbn; auto.
Qed.

End PatternTexts.

(** C8. The block is cut into its physical lines, and every field comes
    from the first of these lines that holds one of the field's pattern
    texts (SUMMARY:, DTSTART: or DTSTART;VALUE=DATE:, DTEND: or
    DTEND;VALUE=DATE:, DESCRIPTION:, LOCATION:): the raw value is exactly
    what is left of that line after the leftmost such text, and nothing when
    no line holds one; summary, description and location are the raw value,
    start and end the raw value normalised.  A folded value (CR LF and a
    space, then more text) is cut at the end of its first physical line. *)
Theorem fields_from_first_matching_line (b : str) :
  (physical_lines b (lines b) /\
   forall ls, physical_lines b ls -> ls = lines b) /\
  (exists rawSummary rawStart rawEnd rawDescription rawLocation : option str,
     taken_from [lit "SUMMARY:"] (lines b) rawSummary /\
     taken_from [lit "DTSTART:"; lit "DTSTART;VALUE=DATE:"] (lines b)
       rawStart /\
     taken_from [lit "DTEND:"; lit "DTEND;VALUE=DATE:"] (lines b) rawEnd /\
     taken_from [lit "DESCRIPTION:"] (lines b) rawDescription /\
     taken_from [lit "LOCATION:"] (lines b) rawLocation /\
     summary (parseEvent b)
       = match rawSummary with Some v => v | None => [] end /\
     start (parseEvent b)
       = match rawStart with Some tok => normalizeDate tok | None => [] end /\
     end_ (parseEvent b)
       = match rawEnd with Some tok => normalizeDate tok | None => [] end /\
     description (parseEvent b) = rawDescription /\
     location (parseEvent b) = rawLocation) /\
  (forall v rest, no_terminator v = true ->
     let folded := v ++ [13; 10; 32]%N ++ rest in
     summary (parseEvent (lit "SUMMARY:" ++ folded)) = v /\
     description (parseEvent (lit "DESCRIPTION:" ++ folded)) = Some v /\
     location (parseEvent (lit "LOCATION:" ++ folded)) = Some v /\
     start (parseEvent (lit "DTSTART:" ++ folded)) = normalizeDate v /\
     start (parseEvent (lit "DTSTART;VALUE=DATE:" ++ folded))
       = normalizeDate v /\
     end_ (parseEvent (lit "DTEND:" ++ folded)) = normalizeDate v /\
     end_ (parseEvent (lit "DTEND;VALUE=DATE:" ++ folded)) = normalizeDate v).
Proof.
  split; [split; [apply lines_physical | apply physical_lines_unique]|].
  split.
  - destruct (parseEvent_fields b) as (Hs & Hst & He & Hd & Hl).
    unfold summaryRegex, startRegex, endRegex, descRegex, locRegex in *.
    rewrite field_regex_lines in Hs, Hd, Hl
      by (apply lit_at_within_line; reflexivity).
    rewrite field_regex_lines in Hst, He
      by (apply date_prefix_within_line; reflexivity).
    exists (first_line_matching (lit_at (lit "SUMMARY:")) (lines b)),
      (first_line_matching (date_prefix (lit "DTSTART")) (lines b)),
      (first_line_matching (date_prefix (lit "DTEND")) (lines b)),
      (first_line_matching (lit_at (lit "DESCRIPTION:")) (lines b)),
      (first_line_matching (lit_at (lit "LOCATION:")) (lines b)).
    split; [exact (@first_line_taken _ _ (lit_at_texts (lit "SUMMARY:")) _)|].
    split;
      [exact (@first_line_taken _ _ (date_prefix_texts (lit "DTSTART")) _)|].
    split;
      [exact (@first_line_taken _ _ (date_prefix_texts (lit "DTEND")) _)|].
    split;
      [exact (@first_line_taken _ _ (lit_at_texts (lit "DESCRIPTION:")) _)|].
    split; [exact (@first_line_taken _ _ (lit_at_texts (lit "LOCATION:")) _)|].
    auto.
  - intros v rest Hv. cbv zeta.
    assert (Hlit : forall p, str_match (field_regex (lit_at p))
                               (p ++ v ++ [13; 10; 32]%N ++ rest) = Some v)
      by (intros p; apply field_of_first_line;
            [apply lit_at_complete | exact Hv | reflexivity]).
    assert (Hplain : forall name,
              str_match (field_regex (date_prefix name))
                ((name ++ lit ":") ++ v ++ [13; 10; 32]%N ++ rest) = Some v)
      by (intros name; apply field_of_first_line;
            [apply date_prefix_plain_text | exact Hv | reflexivity]).
    assert (Hdate : forall name,
              str_match (field_regex (date_prefix name))
                ((name ++ lit ";VALUE=DATE:") ++ v ++ [13; 10; 32]%N ++ rest)
              = Some v)
      by (intros name; apply field_of_first_line;
            [apply date_prefix_value_date_text | exact Hv | reflexivity]).
    split; [|split; [|split; [|split; [|split; [|split]]]]].
    + destruct (parseEvent_fields
                  (lit "SUMMARY:" ++ v ++ [13; 10; 32]%N ++ rest)) as (-> & _).
      unfold summaryRegex. now rewrite Hlit.
    + destruct (parseEvent_fields
                  (lit "DESCRIPTION:" ++ v ++ [13; 10; 32]%N ++ rest))
        as (_ & _ & _ & -> & _).
      unfold descRegex. now rewrite Hlit.
    + destruct (parseEvent_fields
                  (lit "LOCATION:" ++ v ++ [13; 10; 32]%N ++ rest))
        as (_ & _ & _ & _ & ->).
      unfold locRegex. now rewrite Hlit.
    + destruct (parseEvent_fields
                  (lit "DTSTART:" ++ v ++ [13; 10; 32]%N ++ rest))
        as (_ & -> & _).
      unfold startRegex. pose proof (Hplain (lit "DTSTART")) as H.
      change (lit "DTSTART" ++ lit ":") with (lit "DTSTART:") in H. now rewrite H.
    + destruct (parseEvent_fields
                  (lit "DTSTART;VALUE=DATE:" ++ v ++ [13; 10; 32]%N ++ rest))
        as (_ & -> & _).
      unfold startRegex. pose proof (Hdate (lit "DTSTART")) as H.
      change (lit "DTSTART" ++ lit ";VALUE=DATE:") with (lit "DTSTART;VALUE=DATE:") in H. now rewrite H.
    + destruct (parseEvent_fields
                  (lit "DTEND:" ++ v ++ [13; 10; 32]%N ++ rest))
        as (_ & _ & -> & _).
      unfold endRegex. pose proof (Hplain (lit "DTEND")) as H.
      change (lit "DTEND" ++ lit ":") with (lit "DTEND:") in H. now rewrite H.
    + destruct (parseEvent_fields
                  (lit "DTEND;VALUE=DATE:" ++ v ++ [13; 10; 32]%N ++ rest))
        as (_ & _ & -> & _).
      unfold endRegex. pose proof (Hdate (lit "DTEND")) as H.
      change (lit "DTEND" ++ lit ";VALUE=DATE:") with (lit "DTEND;VALUE=DATE:") in H. now rewrite H.
Qed.

(** C8 at a folded summary and at a folded all-day start: only the first
    physical line is kept. *)
Lemma fields_from_first_matching_line_witness :
  summary
    (parseEvent
       (lit "SUMMARY:" ++ lit "Quarterly" ++ [13; 10; 32]%N ++ lit "review"))
  = lit "Quarterly" /\
  start
    (parseEvent
       (lit "DTSTART;VALUE=DATE:" ++ lit "20240315" ++ [13; 10; 32]%N
          ++ lit "T090000"))
  = lit "2024-03-15".
Proof.
  split.
  - exact (proj1 (proj2 (proj2 (fields_from_first_matching_line []))
                    (lit "Quarterly") (lit "review") eq_refl)).
  - exact (proj1 (proj2 (proj2 (proj2 (proj2
             (proj2 (proj2 (fields_from_first_matching_line []))
                (lit "20240315") (lit "T090000") eq_refl)))))).
Defined.

(** ** The page's state and its import handlers (page.tsx lines 13-214) *)

Module App.

(** The useState cells of [Home]. *)
Record State := mkState {
  events : list Event;
  url : str;
  loading : bool;
  error : str;
  dragActive : bool;
  showExportModal : bool;
  exportStartDate : str;
  exportEndDate : str;
  currentMonthIndex : Z
}.

(** A thrown value: an Error instance with its message, or anything else. *)
Inductive Thrown :=
| ErrorObject (message : str)
| OtherValue.

(** A handler runs on the state and ends normally or by a throw. *)
Definition Handler (A : Type) : Type := State -> (Thrown + A) * State.

Definition ret (A : Type) (a : A) : Handler A := fun st => (inr a, st).

Definition bind (A B : Type) (m : Handler A) (f : A -> Handler B) : Handler B :=
  fun st =>
    match m st with
    | (inr a, st') => f a st'
    | (inl t, st') => (inl t, st')
    end.

Definition throw (A : Type) (t : Thrown) : Handler A := fun st => (inl t, st).
Arguments throw {A} t.

(** try body catch (e) handler(e) finally fin. *)
Definition try_catch_finally (body : Handler unit)
    (handler : Thrown -> Handler unit) (fin : Handler unit) : Handler unit :=
  fun st =>
    match body st with
    | (inr _, st1) => fin st1
    | (inl t, st1) =>
        match handler t st1 with
        | (inr _, st2) => fin st2
        | (inl t', st2) =>
            match fin st2 with
            | (inr _, st3) => (inl t', st3)
            | (inl t'', st3) => (inl t'', st3)
            end
        end
    end.

Definition setEvents (v : list Event) : Handler unit := fun st =>
  (inr tt, mkState v (url st) (loading st) (error st) (dragActive st)
             (showExportModal st) (exportStartDate st) (exportEndDate st)
             (currentMonthIndex st)).

Definition setLoading (v : bool) : Handler unit := fun st =>
  (inr tt, mkState (events st) (url st) v (error st) (dragActive st)
             (showExportModal st) (exportStartDate st) (exportEndDate st)
             (currentMonthIndex st)).

Definition setError (v : str) : Handler unit := fun st =>
  (inr tt, mkState (events st) (url st) (loading st) v (dragActive st)
             (showExportModal st) (exportStartDate st) (exportEndDate st)
             (currentMonthIndex st)).

Definition setDragActive (v : bool) : Handler unit := fun st =>
  (inr tt, mkState (events st) (url st) (loading st) (error st) v
             (showExportModal st) (exportStartDate st) (exportEndDate st)
             (currentMonthIndex st)).

(** The functional form of the setter: the updater receives the previous
    value. *)
Definition setCurrentMonthIndex (f : Z -> Z) : Handler unit := fun st =>
  (inr tt, mkState (events st) (url st) (loading st) (error st) (dragActive st)
             (showExportModal st) (exportStartDate st) (exportEndDate st)
             (f (currentMonthIndex st))).

Definition get : Handler State := fun st => (inr st, st).

End App.

Import App.

Notation "x <- c1 ;; c2" := (bind c1 (fun x => c2))
  (at level 61, c1 at next level, right associativity).
Notation "c1 ;; c2" := (bind c1 (fun _ => c2))
  (at level 61, right associativity).

(** What the awaited POST to /api/fetch-ics comes to. *)
Inductive FetchOutcome :=
| FetchRejects (thrown : Thrown)
    (* fetch or response.json() rejects *)
| ResponseNotOk (errorField : str)
    (* !response.ok; the body's error field, empty when there is none *)
| ResponseBadContent (typeError : str)
    (* ok, but content is no string: parseICS(content) throws a TypeError *)
| ResponseOk (content : str).

(** What the awaited file.text() comes to. *)
Inductive FileOutcome :=
| TextRejects (thrown : Thrown)
| TextOk (content : str).

Definition handleUrlImport (urlToFetch : str) (outcome : FetchOutcome)
    : Handler unit :=
  st <- get ;;
  let urlToUse := or_else urlToFetch (url st) in
  match urlToUse with
  | [] => setError (lit "Please enter a calendar URL")
  | _ =>
      setLoading true ;;
      setError [] ;;
      try_catch_finally
        (match outcome with
         | FetchRejects t => throw t
         | ResponseNotOk errorField =>
             throw (ErrorObject (or_else errorField (lit "Failed to fetch ICS file")))
         | ResponseBadContent typeError => throw (ErrorObject typeError)
         | ResponseOk content =>
             let parsedEvents := parseICS content in
             setEvents parsedEvents
         end)
        (fun thrown =>
           setError
             match thrown with
             | ErrorObject message => message
             | OtherValue => lit "Failed to import calendar"
             end)
        (setLoading false)
  end.

(** [file] is [None] when the input holds no file. *)
Definition handleFileUpload (file : option FileOutcome) : Handler unit :=
  match file with
  | None => ret tt
  | Some text =>
      setLoading true ;;
      setError [] ;;
      try_catch_finally
        (match text with
         | TextRejects t => throw t
         | TextOk content =>
             let parsedEvents := parseICS content in
             setEvents parsedEvents
         end)
        (fun _ => setError (lit "Error parsing ICS file"))
        (setLoading false)
  end.

Definition handleDrop (file : option FileOutcome) : Handler unit :=
  setDragActive false ;;
  match file with
  | None => ret tt
  | Some text =>
      setLoading true ;;
      setError [] ;;
      try_catch_finally
        (match text with
         | TextRejects t => throw t
         | TextOk content =>
             let parsedEvents := parseICS content in
             setEvents parsedEvents
         end)
        (fun _ => setError (lit "Error parsing ICS file"))
        (setLoading false)
  end.

(** The state a handler leaves. *)
Definition after (h : Handler unit) (st : State) : State := snd (h st).

(** An import failed: the awaited step threw, or there was nothing to
    import. *)
Definition fetch_failed (o : FetchOutcome) : bool :=
  match o with ResponseOk _ => false | _ => true end.

Definition file_failed (f : option FileOutcome) : bool :=
  match f with Some (TextOk _) => false | _ => true end.

(** C7. A successful import (by URL, file input or drop) sets the event
    collection to the newly parsed sequence, whatever was displayed before;
    a failed import leaves the event collection as it was and records only an
    error message and the end of loading. *)
Theorem import_replaces_or_keeps (st : State) :
  (forall urlToFetch content,
     or_else urlToFetch (url st) <> [] ->
     events (after (handleUrlImport urlToFetch (ResponseOk content)) st)
       = parseICS content) /\
  (forall content,
     events (after (handleFileUpload (Some (TextOk content))) st)
       = parseICS content /\
     events (after (handleDrop (Some (TextOk content))) st)
       = parseICS content) /\
  (forall urlToFetch outcome,
     fetch_failed outcome = true \/ or_else urlToFetch (url st) = [] ->
     events (after (handleUrlImport urlToFetch outcome) st) = events st) /\
  (forall file,
     file_failed file = true ->
     events (after (handleFileUpload file) st) = events st /\
     events (after (handleDrop file) st) = events st).
Proof.
  repeat split.
  - intros urlToFetch content Hurl. unfold after, handleUrlImport, bind, get.
    destruct (or_else urlToFetch (url st)); [contradiction | reflexivity].
  - intros urlToFetch outcome H. unfold after, handleUrlImport, bind, get.
    destruct (or_else urlToFetch (url st)) eqn:E; [reflexivity|].
    destruct H as [H|H]; [|discriminate].
    destruct outcome as [[?|]| ? | ? | ?]; try discriminate; reflexivity.
  - destruct file as [[[?|]|?]|]; try discriminate; reflexivity.
  - destruct file as [[[?|]|?]|]; try discriminate; reflexivity.
Qed.

(** C7 at a page that already shows one event: a failed fetch keeps it. *)
Lemma import_replaces_or_keeps_witness :
  events
    (after
       (handleUrlImport (lit "https://example.org/a.ics")
          (ResponseNotOk (lit "Failed to fetch ICS file")))
       (mkState [mkEvent (lit "kept") [] [] None None] [] false [] false false
          [] [] 0))
  = [mkEvent (lit "kept") [] [] None None].
Proof.
  exact (proj1 (proj2 (proj2
    (import_replaces_or_keeps
       (mkState [mkEvent (lit "kept") [] [] None None] [] false [] false false
          [] [] 0)))) (lit "https://example.org/a.ics")
    (ResponseNotOk (lit "Failed to fetch ICS file")) (or_introl eq_refl)).
Defined.

(** ** Month navigation (page.tsx lines 541-612) *)

(** [l.findIndex(p)]: the index of the first element that satisfies [p], or
    -1. *)
Fixpoint findIndex (A : Type) (p : A -> bool) (l : list A) : Z :=
  match l with
  | [] => -1
  | x :: l' =>
      if p x then 0
      else
        let i := findIndex p l' in
        if (i <? 0)%Z then -1 else (i + 1)%Z
  end.

Section Navigation.

(** The month keys in ascending order, and the key of today's month. *)
Variable sortedMonths : list str.
Variable currentMonthKey : str.

(** The constant [currentMonthIndex] declared inside the render closure.
    It shadows the state cell of the same name from its declaration to the
    end of the closure, so every use below it, the two [disabled]
    attributes included, reads this constant. *)
Definition currentMonthIndex_const : Z :=
  findIndex (fun month => str_eqb month currentMonthKey) sortedMonths.

(** The index of the bucket that is rendered. *)
Definition displayedIndex (st : State) : Z :=
  if (currentMonthIndex_const >=? 0)%Z then currentMonthIndex_const else 0%Z.

(** The key of the bucket that is rendered; [None] when there are no
    buckets and the closure returns null. *)
Definition monthKey (st : State) : option str :=
  match sortedMonths with
  | [] => None
  | _ => nth_error sortedMonths (Z.to_nat (displayedIndex st))
  end.

(** The onClick handlers of the two buttons. *)
Definition previousMonth : Handler unit :=
  setCurrentMonthIndex (fun prev => Z.max 0 (prev - 1)).

Definition nextMonth : Handler unit :=
  setCurrentMonthIndex
    (fun prev => Z.min (Z.of_nat (length sortedMonths) - 1) (prev + 1)).

Definition previousDisabled : bool := (currentMonthIndex_const =? 0)%Z.
Definition nextDisabled : bool :=
  (currentMonthIndex_const =? Z.of_nat (length sortedMonths) - 1)%Z.

(** A click on a button: a disabled button does not call its handler. *)
Definition click (disabled : bool) (h : Handler unit) (st : State) : State :=
  if disabled then st else after h st.

Definition clickNext : State -> State := click nextDisabled nextMonth.
Definition clickPrevious : State -> State := click previousDisabled previousMonth.

End Navigation.

Section NavigationFacts.

Lemma str_eqb_eq (a b : str) : str_eqb a b = true <-> a = b.
Proof.
  revert b; induction a as [|c a IH]; intros [|d b]; cbn [str_eqb];
    try (split; [discriminate | congruence]); [tauto|].
  rewrite andb_true_iff, N.eqb_eq, IH. split; [intros [-> ->] | intros [= -> ->]]; auto.
Qed.

Lemma findIndex_found (key : str) (l : list str) :
  In key l ->
  let i := findIndex (fun month => str_eqb month key) l in
  (0 <= i)%Z /\ nth_error l (Z.to_nat i) = Some key.
Proof.
  cbv zeta. induction l as [|x l IH]; [contradiction|].
  intros Hin. cbn [findIndex].
  destruct (str_eqb x key) eqn:E.
  - apply str_eqb_eq in E as ->. split; [lia | reflexivity].
  - destruct Hin as [->|Hin].
    + assert (str_eqb key key = true) by now apply str_eqb_eq.
      congruence.
    + destruct (IH Hin) as (H0 & Hnth).
      destruct (Z.ltb_spec (findIndex (fun month => str_eqb month key) l) 0);
        [lia|].
      split; [lia|].
      now rewrite Z2Nat.inj_add by lia; rewrite Nat.add_1_r.
Qed.

Lemma findIndex_absent (key : str) (l : list str) :
  ~ In key l -> findIndex (fun month => str_eqb month key) l = (-1)%Z.
Proof.
  induction l as [|x l IH]; [reflexivity|].
  intros Hn. cbn [findIndex].
  destruct (str_eqb x key) eqn:E.
  - apply str_eqb_eq in E as ->. exfalso. apply Hn. now left.
  - rewrite IH; [reflexivity|]. intros H. apply Hn. now right.
Qed.

End NavigationFacts.

(** Three buckets, none of them today's month, and the page as first
    rendered. *)
Definition three_months : list str :=
  [lit "2024-01"; lit "2024-02"; lit "2024-03"].
Definition a_later_month : str := lit "2026-11".
Definition first_render : State := mkState [] [] false [] false false [] [] 0.

(** C3 on the code.  The state cell is clamped as the claim says: it starts
    at 0, two clicks on Next bring it to 2, a third leaves it at 2, Previous
    at 0 leaves it at 0.  The rendered bucket does not read the state cell:
    it is the default bucket (today's month if present, else the first) in
    every state, so after the two clicks it is still the first bucket and not
    the third. *)
Theorem navigation_does_not_move_display :
  (forall sortedMonths currentMonthKey st,
     (In currentMonthKey sortedMonths ->
      monthKey sortedMonths currentMonthKey st = Some currentMonthKey) /\
     (~ In currentMonthKey sortedMonths ->
      monthKey sortedMonths currentMonthKey st = hd_error sortedMonths)) /\
  (forall sortedMonths currentMonthKey st st',
     monthKey sortedMonths currentMonthKey st
       = monthKey sortedMonths currentMonthKey st') /\
  (forall sortedMonths st,
     sortedMonths <> [] ->
     (0 <= currentMonthIndex st <= Z.of_nat (length sortedMonths) - 1)%Z ->
     (0 <= currentMonthIndex (after (nextMonth sortedMonths) st)
        <= Z.of_nat (length sortedMonths) - 1)%Z /\
     (0 <= currentMonthIndex (after previousMonth st)
        <= Z.of_nat (length sortedMonths) - 1)%Z) /\
  let next := clickNext three_months a_later_month in
  currentMonthIndex first_render = 0%Z /\
  currentMonthIndex (next (next first_render)) = 2%Z /\
  currentMonthIndex (next (next (next first_render))) = 2%Z /\
  currentMonthIndex (clickPrevious three_months a_later_month first_render) = 0%Z /\
  monthKey three_months a_later_month first_render = Some (lit "2024-01") /\
  monthKey three_months a_later_month (next (next first_render))
    = Some (lit "2024-01") /\
  nth_error three_months 2 = Some (lit "2024-03").
Proof.
  split; [|split; [reflexivity|split]].
  - intros sortedMonths currentMonthKey st.
    unfold monthKey, displayedIndex, currentMonthIndex_const. split.
    + intros Hin. destruct (findIndex_found _ _ Hin) as (H0 & Hnth).
      destruct sortedMonths as [|m months]; [contradiction|].
      destruct (Z.geb_spec (findIndex (fun month => str_eqb month currentMonthKey)
                              (m :: months)) 0); [exact Hnth | lia].
    + intros Hn. rewrite (findIndex_absent _ _ Hn).
      now destruct sortedMonths.
  - intros sortedMonths st Hne Hin. unfold after, nextMonth, previousMonth.
    cbn [setCurrentMonthIndex snd currentMonthIndex]. lia.
  - cbv zeta. repeat split.
Qed.

(** ** CSV export and total hours (page.tsx lines 463-514 and 568-575) *)

(** The double-quote code unit. *)
Definition dquote : char := 34%N.

(** The replace call of the row mapper: every double quote of the field
    becomes two. *)
Definition escape (field : str) : str :=
  flat_map (fun c => if N.eqb c dquote then [dquote; dquote] else [c]) field.

(** The template literal of the row mapper: the escaped field between two
    double quotes. *)
Definition quote (field : str) : str := [dquote] ++ escape field ++ [dquote].

(** Reading an escaped text back, as a CSV reader does: a doubled quote is
    one quote, a single quote is not allowed. *)
Fixpoint unescape (s : str) : option str :=
  match s with
  | [] => Some []
  | c :: s' =>
      if N.eqb c dquote then
        match s' with
        | d :: s'' =>
            if N.eqb d dquote then option_map (cons dquote) (unescape s'')
            else None
        | [] => None
        end
      else option_map (cons c) (unescape s')
  end.

Definition headers : list str :=
  [lit "Summary"; lit "Start Date"; lit "End Date"; lit "Location";
   lit "Description"].

(** An optional string or-ed with the empty string. *)
Definition or_empty (x : option str) : str :=
  match x with Some v => v | None => [] end.

Section Platform.

(** What the JavaScript engine provides.  [Date_parse s] is the time value
    of [new Date(s)] in milliseconds, NaN for an invalid date;
    [toLocaleString t] is the text of the date with time value [t] in the
    user's locale; [toFixed1 x] is [x.toFixed(1)]. *)
Variable Date_parse : str -> float.
Variable toLocaleString : float -> str.
Variable toFixed1 : float -> str.

(** [a >= b] and [a <= b] on two Date objects compare their time values;
    both are false when either is NaN. *)
Definition date_ge (a b : float) : bool := PrimFloat.leb b a.
Definition date_le (a b : float) : bool := PrimFloat.leb a b.

Definition filteredEvents (events : list Event)
    (exportStartDate exportEndDate : str) : list Event :=
  filter
    (fun event =>
       let eventDate := Date_parse (start event) in
       let startDate := Date_parse exportStartDate in
       let endDate := Date_parse exportEndDate in
       date_ge eventDate startDate && date_le eventDate endDate)
    events.

Definition row (event : Event) : list str :=
  List.map quote
    [ summary event;
      toLocaleString (Date_parse (start event));
      toLocaleString (Date_parse (end_ event));
      or_empty (location event);
      or_empty (description event) ].

(** [csvRows] starts as the header row and receives one push per filtered
    event. *)
Definition csvRows (events : list Event) (exportStartDate exportEndDate : str)
    : list (list str) :=
  fold_left (fun rows event => rows ++ [row event])
    (filteredEvents events exportStartDate exportEndDate) [headers].

Definition csvContent (events : list Event)
    (exportStartDate exportEndDate : str) : str :=
  join [10%N]
    (List.map (fun r => join (lit ",") r)
       (csvRows events exportStartDate exportEndDate)).

(** [totalHours]: the reduce over the bucket's events, from 0. *)
Definition totalHours (monthEvents : list Event) : float :=
  fold_left
    (fun acc event =>
       let start := Date_parse (start event) in
       let end_ := Date_parse (end_ event) in
       let duration := ((end_ - start) / (1000 * 60 * 60))%float in
       (acc + duration)%float)
    monthEvents 0%float.

(** The text shown after Total Hours. *)
Definition totalHoursText (monthEvents : list Event) : str :=
  toFixed1 (totalHours monthEvents).

(** The duration of one event in hours: end minus start, as instants in
    milliseconds, over the milliseconds of an hour. *)
Definition hours (event : Event) : float :=
  ((Date_parse (end_ event) - Date_parse (start event)) / 3600000)%float.

Lemma unescape_escape (field : str) : unescape (escape field) = Some field.
Proof.
  induction field as [|c field IH]; [reflexivity|].
  cbn [escape flat_map]. fold (escape field).
  destruct (N.eqb c dquote) eqn:E.
  - apply N.eqb_eq in E as ->. cbn. now rewrite IH.
  - cbn [app unescape]. now rewrite E, IH.
Qed.

Lemma csvRows_eq (events : list Event) (s e : str) :
  csvRows events s e = headers :: List.map row (filteredEvents events s e).
Proof. unfold csvRows. now rewrite push_loop_map. Qed.

Lemma header_line :
  join (lit ",") headers = lit "Summary,Start Date,End Date,Location,Description".
Proof. reflexivity. Qed.

Lemma csvContent_eq (events : list Event) (s e : str) :
  csvContent events s e
  = join [10%N]
      (lit "Summary,Start Date,End Date,Location,Description"
         :: List.map (fun ev => join (lit ",") (row ev))
              (filteredEvents events s e)).
Proof.
  unfold csvContent. rewrite csvRows_eq. cbn [List.map].
  now rewrite map_map, header_line.
Qed.

Lemma in_filteredEvents (events : list Event) (s e : str) (ev : Event) :
  In ev (filteredEvents events s e) <->
  In ev events /\
  PrimFloat.leb (Date_parse s) (Date_parse (start ev)) = true /\
  PrimFloat.leb (Date_parse (start ev)) (Date_parse e) = true.
Proof.
  unfold filteredEvents. rewrite filter_In.
  unfold date_ge, date_le. cbv zeta. now rewrite andb_true_iff.
Qed.

(** C4. The export keeps exactly the events whose start, read as a date,
    lies between the start date and the end date, both included, in their
    order; the text is the header row Summary, Start Date, End Date,
    Location, Description and then one row per kept event; each field of an
    event row is wrapped in double quotes with the quotes inside it
    doubled; fields are joined by commas and rows by newlines.  For the
    Team Sync event of 2024-03-10 and the range 2024-03-01 to 2024-03-31
    the text is the header row and one row that begins with the quoted
    Team Sync. *)
Theorem csv_export_filters_and_quotes (events : list Event)
    (exportStartDate exportEndDate : str) :
  let kept := filteredEvents events exportStartDate exportEndDate in
  (forall ev,
     In ev kept <->
     In ev events /\
     PrimFloat.leb (Date_parse exportStartDate) (Date_parse (start ev)) = true /\
     PrimFloat.leb (Date_parse (start ev)) (Date_parse exportEndDate) = true) /\
  (exists keep, kept = filter keep events) /\
  csvContent events exportStartDate exportEndDate
    = join [10%N]
        (lit "Summary,Start Date,End Date,Location,Description"
           :: List.map (fun ev => join (lit ",") (row ev)) kept) /\
  (forall ev,
     row ev
     = [ quote (summary ev);
         quote (toLocaleString (Date_parse (start ev)));
         quote (toLocaleString (Date_parse (end_ ev)));
         quote (or_empty (location ev));
         quote (or_empty (description ev)) ]) /\
  (forall field,
     quote field = [dquote] ++ escape field ++ [dquote] /\
     unescape (escape field) = Some field) /\
  (let teamSync :=
     {| summary := lit "Team Sync"; start := lit "2024-03-10";
        end_ := lit "2024-03-10"; description := Some (lit "Weekly");
        location := Some [] |} in
   PrimFloat.leb (Date_parse (lit "2024-03-01")) (Date_parse (lit "2024-03-10"))
     = true ->
   PrimFloat.leb (Date_parse (lit "2024-03-10")) (Date_parse (lit "2024-03-31"))
     = true ->
   csvContent [teamSync] (lit "2024-03-01") (lit "2024-03-31")
   = lit "Summary,Start Date,End Date,Location,Description" ++ [10%N]
       ++ [dquote] ++ lit "Team Sync" ++ [dquote] ++ lit ","
       ++ quote (toLocaleString (Date_parse (lit "2024-03-10"))) ++ lit ","
       ++ quote (toLocaleString (Date_parse (lit "2024-03-10"))) ++ lit ","
       ++ quote [] ++ lit "," ++ quote (lit "Weekly")).
Proof.
  cbv zeta. split; [intros ev; apply in_filteredEvents|].
  split; [eexists; reflexivity|].
  split; [apply csvContent_eq|].
  split; [reflexivity|].
  split; [intros field; split; [reflexivity | apply unescape_escape]|].
  intros H1 H2. rewrite csvContent_eq.
  unfold filteredEvents, date_ge, date_le. cbn [filter start].
  rewrite H1, H2. reflexivity.
Qed.

End Platform.

(** ** A sample engine, for instances

    An engine in the UTC time zone whose date parser reads YYYY-MM-DD as
    midnight and YYYY-MM-DD HH:MM as that wall-clock time, and takes every
    other text for an invalid date. *)

Module SampleEngine.

Definition digit (c : char) : option Z :=
  if (N.leb 48 c && N.leb c 57)%bool then Some (Z.of_N c - 48)%Z else None.

Definition number (s : str) : option Z :=
  fold_left
    (fun acc c =>
       match acc, digit c with
       | Some a, Some d => Some (10 * a + d)%Z
       | _, _ => None
       end)
    s (Some 0%Z).

(** Days from 1970-01-01 to a day of the proleptic Gregorian calendar. *)
Definition days_from_civil (y m d : Z) : Z :=
  let y' := if (m <=? 2)%Z then (y - 1)%Z else y in
  let era := (y' / 400)%Z in
  let yoe := (y' - era * 400)%Z in
  let mp := if (m >? 2)%Z then (m - 3)%Z else (m + 9)%Z in
  let doy := ((153 * mp + 2) / 5 + d - 1)%Z in
  let doe := (yoe * 365 + yoe / 4 - yoe / 100 + doy)%Z in
  (era * 146097 + doe - 719468)%Z.

Definition float_of_Z (z : Z) : float :=
  if (z <? 0)%Z then PrimFloat.opp (PrimFloat.of_uint63 (Uint63.of_Z (- z)))
  else PrimFloat.of_uint63 (Uint63.of_Z z).

Definition time_value (y m d hh mm : option Z) : float :=
  match y, m, d, hh, mm with
  | Some y, Some m, Some d, Some hh, Some mm =>
      if ((1 <=? m) && (m <=? 12) && (1 <=? d) && (d <=? 31)
          && (hh <=? 23) && (mm <=? 59))%Z%bool
      then
        float_of_Z
          (days_from_civil y m d * 86400000 + hh * 3600000 + mm * 60000)%Z
      else PrimFloat.nan
  | _, _, _, _, _ => PrimFloat.nan
  end.

Definition Date_parse (s : str) : float :=
  match s with
  | [y1; y2; y3; y4; 45; m1; m2; 45; d1; d2]%N =>
      time_value (number [y1; y2; y3; y4]) (number [m1; m2])
        (number [d1; d2]) (Some 0%Z) (Some 0%Z)
  | [y1; y2; y3; y4; 45; m1; m2; 45; d1; d2; 32; h1; h2; 58; n1; n2]%N =>
      time_value (number [y1; y2; y3; y4]) (number [m1; m2])
        (number [d1; d2]) (number [h1; h2]) (number [n1; n2])
  | _ => PrimFloat.nan
  end.

(** The en-US text of the one instant the instances print. *)
Definition toLocaleString (t : float) : str :=
  if PrimFloat.eqb t 1710028800000 then lit "3/10/2024, 12:00:00 AM"
  else lit "Invalid Date".

(** One decimal, for the totals the instances show. *)
Definition toFixed1 (x : float) : str :=
  if PrimFloat.eqb x (-1) then lit "-1.0"
  else if PrimFloat.eqb x 0 then lit "0.0"
  else lit "NaN".

End SampleEngine.

(** C4 at the Team Sync event of the specification, on the sample engine. *)
Lemma csv_export_filters_and_quotes_witness :
  csvContent SampleEngine.Date_parse SampleEngine.toLocaleString
    [ {| summary := lit "Team Sync"; start := lit "2024-03-10";
         end_ := lit "2024-03-10"; description := Some (lit "Weekly");
         location := Some [] |} ]
    (lit "2024-03-01") (lit "2024-03-31")
  = lit "Summary,Start Date,End Date,Location,Description" ++ [10%N]
      ++ [dquote] ++ lit "Team Sync" ++ [dquote] ++ lit ","
      ++ [dquote] ++ lit "3/10/2024, 12:00:00 AM" ++ [dquote] ++ lit ","
      ++ [dquote] ++ lit "3/10/2024, 12:00:00 AM" ++ [dquote] ++ lit ","
      ++ [dquote; dquote] ++ lit "," ++ [dquote] ++ lit "Weekly" ++ [dquote].
Proof.
  exact (proj2 (proj2 (proj2 (proj2 (proj2
    (csv_export_filters_and_quotes SampleEngine.Date_parse
       SampleEngine.toLocaleString [] [] []))))) eq_refl eq_refl).
Defined.

(** ** Not-a-number in sums, differences and quotients *)

Section NaNFacts.

Lemma is_nan_spec (x : float) :
  PrimFloat.is_nan x = true <-> Prim2SF x = S754_nan.
Proof.
  unfold PrimFloat.is_nan. rewrite eqb_spec. unfold SFeqb, SFcompare.
  destruct (Prim2SF x) as [s|s| |s m e]; cbn.
  - split; discriminate.
  - destruct s; split; discriminate.
  - split; reflexivity.
  - rewrite Z.compare_refl, Pos.compare_cont_refl.
    destruct s; split; discriminate.
Qed.

Lemma add_nan (x y : float) :
  PrimFloat.is_nan x = true \/ PrimFloat.is_nan y = true ->
  PrimFloat.is_nan (x + y) = true.
Proof.
  rewrite !is_nan_spec, add_spec. unfold SF64add, SFadd.
  intros [->| ->]; [reflexivity|]. now destruct (Prim2SF x) as [[]|[]| |].
Qed.

Lemma sub_nan (x y : float) :
  PrimFloat.is_nan x = true \/ PrimFloat.is_nan y = true ->
  PrimFloat.is_nan (x - y) = true.
Proof.
  rewrite !is_nan_spec, sub_spec. unfold SF64sub, SFsub.
  intros [->| ->]; [reflexivity|]. now destruct (Prim2SF x) as [[]|[]| |].
Qed.

Lemma div_nan (x y : float) :
  PrimFloat.is_nan x = true -> PrimFloat.is_nan (x / y) = true.
Proof.
  rewrite !is_nan_spec, div_spec. unfold SF64div, SFdiv.
  now intros ->.
Qed.

End NaNFacts.

(** ** Signs of differences and quotients of binary64 numbers *)

Section FloatSign.

(** A zero, or a finite or infinite number with the sign bit [s]. *)
Definition signed (s : bool) (x : spec_float) : bool :=
  match x with
  | S754_zero _ => true
  | S754_infinity s' | S754_finite s' _ _ => Bool.eqb s s'
  | S754_nan => false
  end.

Definition finite_or_zero (x : spec_float) : bool :=
  match x with
  | S754_zero _ | S754_finite _ _ _ => true
  | _ => false
  end.

Lemma shr_1_nonneg (mrs : shr_record) :
  (0 <= shr_m mrs)%Z -> (0 <= shr_m (shr_1 mrs))%Z.
Proof. destruct mrs as [[|[p|p|]|p] r s]; cbn; lia. Qed.

Lemma iter_pos_invariant (A : Type) (P : A -> Prop) (f : A -> A) :
  (forall x, P x -> P (f x)) ->
  forall n x, P x -> P (iter_pos f n x).
Proof. intros Hf. induction n; cbn; auto. Qed.

Lemma shr_fexp_nonneg (m e : Z) (l : SpecFloat.location) :
  (0 <= m)%Z -> (0 <= shr_m (fst (shr_fexp prec emax m e l)))%Z.
Proof.
  intros Hm. unfold shr_fexp, shr.
  assert (H0 : (0 <= shr_m (shr_record_of_loc m l))%Z)
    by (destruct l as [|[]]; exact Hm).
  destruct (fexp prec emax (Zdigits2 m + e) - e)%Z; cbn [fst]; auto.
  apply iter_pos_invariant; auto using shr_1_nonneg.
Qed.

Lemma round_nearest_even_nonneg (m : Z) (l : SpecFloat.location) :
  (0 <= m)%Z -> (0 <= round_nearest_even m l)%Z.
Proof.
  intros Hm. destruct l as [|[]]; cbn; try lia.
  destruct (Z.even m); lia.
Qed.

Lemma binary_round_aux_signed (sx : bool) (mx ex : Z) (lx : SpecFloat.location) :
  (0 <= mx)%Z -> signed sx (binary_round_aux prec emax sx mx ex lx) = true.
Proof.
  intros Hm. unfold binary_round_aux.
  pose proof (shr_fexp_nonneg ex lx Hm) as H1.
  destruct (shr_fexp prec emax mx ex lx) as [mrs' e'].
  cbn [fst] in H1.
  pose proof (shr_fexp_nonneg e' loc_Exact
                (round_nearest_even_nonneg (loc_of_shr_record mrs') H1)) as H2.
  destruct (shr_fexp prec emax _ e' loc_Exact) as [mrs'' e''].
  cbn [fst] in H2.
  destruct (shr_m mrs''); [reflexivity| |lia].
  destruct (Z.leb e'' (emax - prec)); cbn; now destruct sx.
Qed.

Lemma binary_normalize_signed (m e : Z) (s : bool) :
  (s = true -> m <= 0)%Z -> (s = false -> 0 <= m)%Z ->
  signed s (binary_normalize prec emax m e false) = true.
Proof.
  intros Ht Hf. destruct m as [|p|p]; [reflexivity| |].
  - destruct s; [specialize (Ht eq_refl); lia|].
    unfold binary_normalize, binary_round.
    destruct (shl_align p e _). now apply binary_round_aux_signed.
  - destruct s; [|specialize (Hf eq_refl); lia].
    unfold binary_normalize, binary_round.
    destruct (shl_align p e _). now apply binary_round_aux_signed.
Qed.

Lemma iter_xO (m d : positive) :
  Zpos (Pos.iter xO m d) = (Zpos m * 2 ^ Zpos d)%Z.
Proof.
  induction d as [|d IH] using Pos.peano_ind.
  - cbn. lia.
  - rewrite Pos.iter_succ, Pos2Z.inj_succ, Z.pow_succ_r by lia.
    change (Zpos (Pos.iter xO m d)~0) with (2 * Zpos (Pos.iter xO m d))%Z.
    rewrite IH. lia.
Qed.

Lemma shl_align_value (m : positive) (e ez : Z) :
  (ez <= e)%Z -> Zpos (fst (shl_align m e ez)) = (Zpos m * 2 ^ (e - ez))%Z.
Proof.
  intros H. unfold shl_align. destruct (ez - e)%Z as [|d|d] eqn:E.
  - replace (e - ez)%Z with 0%Z by lia. cbn [fst]. lia.
  - lia.
  - cbn [fst]. rewrite iter_xO. f_equal. f_equal. lia.
Qed.

Lemma digits2_bounds (m : positive) :
  (2 ^ (Zpos (digits2_pos m) - 1) <= Zpos m < 2 ^ Zpos (digits2_pos m))%Z.
Proof.
  induction m as [m IH|m IH|]; cbn [digits2_pos]; [| |cbn; lia].
  - rewrite Pos2Z.inj_succ. change (Zpos m~1) with (2 * Zpos m + 1)%Z.
    replace (Z.succ (Zpos (digits2_pos m)) - 1)%Z
      with (Z.succ (Zpos (digits2_pos m) - 1)) by lia.
    rewrite !Z.pow_succ_r by lia. revert IH.
    generalize (2 ^ (Zpos (digits2_pos m) - 1))%Z (2 ^ Zpos (digits2_pos m))%Z.
    intros a b IH. lia.
  - rewrite Pos2Z.inj_succ. change (Zpos m~0) with (2 * Zpos m)%Z.
    replace (Z.succ (Zpos (digits2_pos m)) - 1)%Z
      with (Z.succ (Zpos (digits2_pos m) - 1)) by lia.
    rewrite !Z.pow_succ_r by lia. revert IH.
    generalize (2 ^ (Zpos (digits2_pos m) - 1))%Z (2 ^ Zpos (digits2_pos m))%Z.
    intros a b IH. lia.
Qed.

(** Of two numbers of the format with the same sign, the one with the
    smaller exponent has the smaller magnitude. *)
Lemma smaller_exponent (m1 m2 : positive) (e1 e2 : Z) :
  bounded prec emax m1 e1 = true -> bounded prec emax m2 e2 = true ->
  (e1 < e2)%Z ->
  (Zpos m1 < Zpos m2 * 2 ^ (e2 - e1))%Z.
Proof.
  unfold bounded, canonical_mantissa, fexp, SpecFloat.emin, prec, emax.
  intros H1 H2 Hlt.
  apply andb_prop in H1 as [H1 _]. apply andb_prop in H2 as [H2 _].
  apply Z.eqb_eq in H1, H2.
  pose proof (digits2_bounds m1) as [_ B1].
  pose proof (digits2_bounds m2) as [B2 _].
  assert (D1 : (Zpos (digits2_pos m1) <= 53)%Z) by lia.
  assert (D2 : Zpos (digits2_pos m2) = 53%Z) by lia.
  rewrite D2 in B2.
  assert (P1 : (2 ^ Zpos (digits2_pos m1) <= 2 ^ 53)%Z)
    by (apply Z.pow_le_mono_r; lia).
  assert (P2 : (2 ^ 1 <= 2 ^ (e2 - e1))%Z) by (apply Z.pow_le_mono_r; lia).
  change (2 ^ 53)%Z with (2 * 2 ^ (53 - 1))%Z in P1.
  change (2 ^ 1)%Z with 2%Z in P2.
  nia.
Qed.

Lemma SFsub_not_later (x y : spec_float) :
  valid_binary x = true -> valid_binary y = true ->
  finite_or_zero x = true -> finite_or_zero y = true ->
  SFleb x y = true ->
  signed true (SFsub prec emax x y) = true.
Proof.
  intros Vx Vy Fx Fy Hle.
  destruct x as [sx|sx| |sx mx ex]; try discriminate Fx;
    destruct y as [sy|sy| |sy my ey]; try discriminate Fy.
  - now destruct sx, sy.
  - destruct sy; [discriminate Hle | reflexivity].
  - destruct sx; [reflexivity | discriminate Hle].
  - cbn [valid_binary] in Vx, Vy. unfold SFsub.
    apply binary_normalize_signed; [intros _ | discriminate].
    unfold SFleb, SFcompare in Hle.
    destruct (Z.min_spec ex ey) as [[Hlt Hmin]|[Hge Hmin]]; rewrite Hmin.
    + rewrite (shl_align_value mx (e := ex) (ez := ex)) by lia.
      rewrite (shl_align_value my (e := ey) (ez := ex)) by lia.
      rewrite Z.sub_diag, Z.mul_1_r.
      pose proof (smaller_exponent _ _ Vx Vy Hlt).
      apply Z.compare_lt_iff in Hlt. rewrite Hlt in Hle.
      destruct sx, sy; cbn [cond_Zopp]; try discriminate Hle; nia.
    + rewrite (shl_align_value mx (e := ex) (ez := ey)) by lia.
      rewrite (shl_align_value my (e := ey) (ez := ey)) by lia.
      rewrite Z.sub_diag, Z.mul_1_r.
      destruct (Z.compare_spec ex ey) as [Heq|Hlt|Hgt]; [|lia|].
      * subst ey. rewrite Z.sub_diag, Z.mul_1_r.
        change (Pos.compare_cont Eq mx my) with (Pos.compare mx my) in Hle.
        destruct sx, sy; cbn [cond_Zopp]; try discriminate Hle; try lia.
        -- destruct (Pos.compare_spec mx my); try discriminate Hle; lia.
        -- destruct (Pos.compare_spec mx my); try discriminate Hle; lia.
      * pose proof (smaller_exponent _ _ Vy Vx Hgt).
        destruct sx, sy; cbn [cond_Zopp]; try discriminate Hle; nia.
Qed.



Lemma SFdiv_signed (r : spec_float) (mc : positive) (ec : Z) :
  signed true r = true ->
  signed true (SFdiv prec emax r (S754_finite false mc ec)) = true.
Proof.
  destruct r as [s|s| |s m e]; cbn [signed SFdiv]; try discriminate.
  - reflexivity.
  - now destruct s.
  - destruct s; [intros _ | discriminate]. cbn [xorb].
    unfold SFdiv_core_binary.
    set (m' := match _ with Zpos _ => _ | Z0 => _ | Zneg _ => _ end).
    assert (Hm : (0 <= m')%Z).
    { subst m'. destruct (_ - _ - _)%Z; try lia.
      apply Z.shiftl_nonneg. lia. }
    pose proof (Z.div_pos m' (Zpos mc) Hm ltac:(lia)) as Hq.
    unfold Z.div in Hq. destruct (Z.div_eucl m' (Zpos mc)) as [q rem].
    cbn [fst] in Hq. now apply binary_round_aux_signed.
Qed.

Lemma signed_leb_zero (r : spec_float) :
  signed true r = true -> SFleb r (S754_zero false) = true.
Proof. now destruct r as [s|[]| |[] m e]. Qed.

Lemma SFadd_zero_signed (r : spec_float) :
  signed true r = true ->
  signed true (SFadd prec emax (S754_zero false) r) = true.
Proof. now destruct r as [[]|[]| |[] m e]. Qed.

Lemma is_finite_spec (x : float) :
  PrimFloat.is_finite x = true -> finite_or_zero (Prim2SF x) = true.
Proof.
  unfold PrimFloat.is_finite, PrimFloat.is_nan, PrimFloat.is_infinity.
  rewrite !eqb_spec, abs_spec.
  destruct (Prim2SF x) as [s|s| |s m e]; try reflexivity.
  - intros H. apply negb_true_iff, orb_false_iff in H as [_ H].
    now destruct s.
  - intros H. apply negb_true_iff, orb_false_iff in H as [H _].
    discriminate H.
Qed.

(** The rounding does not look at the sign. *)
Lemma binary_round_aux_opp (s : bool) (m e : Z) (l : SpecFloat.location) :
  binary_round_aux prec emax (negb s) m e l
  = SFopp (binary_round_aux prec emax s m e l).
Proof.
  unfold binary_round_aux.
  destruct (shr_fexp prec emax m e l) as [mrs' e'].
  destruct (shr_fexp prec emax _ e' loc_Exact) as [mrs'' e''].
  destruct (shr_m mrs''); [reflexivity| |reflexivity].
  now destruct (Z.leb e'' (emax - prec)).
Qed.

Lemma binary_normalize_opp (m e : Z) :
  m <> 0%Z ->
  binary_normalize prec emax (- m) e false
  = SFopp (binary_normalize prec emax m e false).
Proof.
  intros Hm. destruct m as [|p|p]; [contradiction| |];
    cbn [Z.opp binary_normalize]; unfold binary_round;
    destruct (shl_align p e _) as [mz ez].
  - apply (binary_round_aux_opp false).
  - rewrite (binary_round_aux_opp false).
    now destruct (binary_round_aux _ _ _ _ _ _) as [[]|[]| |[] ? ?].
Qed.

Lemma SFsub_swap (x y : spec_float) :
  valid_binary x = true -> valid_binary y = true ->
  finite_or_zero x = true -> finite_or_zero y = true ->
  SFeqb x y = false ->
  SFsub prec emax y x = SFopp (SFsub prec emax x y).
Proof.
  intros Vx Vy Fx Fy Hne.
  destruct x as [sx|sx| |sx mx ex]; try discriminate Fx;
    destruct y as [sy|sy| |sy my ey]; try discriminate Fy.
  - discriminate Hne.
  - cbn. now rewrite negb_involutive.
  - reflexivity.
  - cbn [valid_binary] in Vx, Vy. unfold SFsub.
    rewrite (Z.min_comm ey ex).
    set (X := cond_Zopp sx _). set (Y := cond_Zopp sy _).
    replace (Y - X)%Z with (- (X - Y))%Z by lia.
    apply binary_normalize_opp. subst X Y.
    unfold SFeqb, SFcompare in Hne.
    destruct (Z.min_spec ex ey) as [[Hlt Hmin]|[Hge Hmin]]; rewrite Hmin.
    + rewrite (shl_align_value mx (e := ex) (ez := ex)) by lia.
      rewrite (shl_align_value my (e := ey) (ez := ex)) by lia.
      rewrite Z.sub_diag, Z.mul_1_r.
      pose proof (smaller_exponent _ _ Vx Vy Hlt).
      assert (0 < 2 ^ (ey - ex))%Z by (apply Z.pow_pos_nonneg; lia).
      destruct sx, sy; cbn [cond_Zopp]; nia.
    + rewrite (shl_align_value mx (e := ex) (ez := ey)) by lia.
      rewrite (shl_align_value my (e := ey) (ez := ey)) by lia.
      rewrite Z.sub_diag, Z.mul_1_r.
      destruct (Z.compare_spec ex ey) as [Heq|Hlt|Hgt]; [|lia|].
      * subst ey. rewrite Z.sub_diag, Z.mul_1_r.
        change (Pos.compare_cont Eq mx my) with (Pos.compare mx my) in Hne.
        destruct sx, sy; cbn [cond_Zopp]; try lia;
          destruct (Pos.compare_spec mx my); try discriminate Hne; lia.
      * pose proof (smaller_exponent _ _ Vy Vx Hgt).
        assert (0 < 2 ^ (ex - ey))%Z by (apply Z.pow_pos_nonneg; lia).
        destruct sx, sy; cbn [cond_Zopp]; nia.
Qed.

Lemma SFdiv_opp (r : spec_float) (mc : positive) (ec : Z) :
  SFdiv prec emax (SFopp r) (S754_finite false mc ec)
  = SFopp (SFdiv prec emax r (S754_finite false mc ec)).
Proof.
  destruct r as [s|s| |s m e]; cbn [SFopp SFdiv]; try reflexivity.
  - now destruct s.
  - now destruct s.
  - destruct (SFdiv_core_binary prec emax (Zpos m) e (Zpos mc) ec) as [[mz ez] lz].
    rewrite !xorb_false_r. apply binary_round_aux_opp.
Qed.

Lemma hour_spec : Prim2SF 3600000 = S754_finite false 7730941132800000 (-31).
Proof. reflexivity. Qed.

(** Of two instants, the one not later minus the other is negative or zero,
    and so is that difference in hours. *)
Lemma hours_not_positive (s e : float) :
  PrimFloat.is_finite s = true -> PrimFloat.is_finite e = true ->
  PrimFloat.leb e s = true ->
  signed true (Prim2SF ((e - s) / 3600000)) = true.
Proof.
  intros Fs Fe Hle. rewrite leb_spec in Hle.
  rewrite div_spec, sub_spec, hour_spec.
  apply SFdiv_signed, SFsub_not_later;
    auto using Prim2SF_valid, is_finite_spec.
Qed.

Lemma hours_swap (s e : float) :
  PrimFloat.is_finite s = true -> PrimFloat.is_finite e = true ->
  PrimFloat.eqb e s = false ->
  ((s - e) / 3600000 = - ((e - s) / 3600000))%float.
Proof.
  intros Fs Fe Hne. rewrite eqb_spec in Hne.
  apply Prim2SF_inj.
  rewrite opp_spec, !div_spec, !sub_spec, hour_spec.
  unfold SF64div, SF64sub.
  rewrite (@SFsub_swap (Prim2SF e) (Prim2SF s));
    auto using Prim2SF_valid, is_finite_spec.
  apply SFdiv_opp.
Qed.

End FloatSign.

(** ** Quoting, as the specification words it *)

(** A text and the same text with every double quote in it written twice. *)
Inductive doubled : str -> str -> Prop :=
| doubled_end : doubled [] []
| doubled_quote (f g : str) :
    doubled f g -> doubled (dquote :: f) (dquote :: dquote :: g)
| doubled_other (c : char) (f g : str) :
    c <> dquote -> doubled f g -> doubled (c :: f) (c :: g).

(** A quoted field: the text with its double quotes doubled, between two
    double quotes. *)
Definition quoted (raw field : str) : Prop :=
  exists g, doubled raw g /\ field = [dquote] ++ g ++ [dquote].

Section QuotedFacts.

Lemma doubled_escape (raw : str) : doubled raw (escape raw).
Proof.
  induction raw as [|c raw IH]; [constructor|].
  cbn [escape flat_map]. fold (escape raw).
  destruct (N.eqb_spec c dquote) as [->|Hc]; cbn [app].
  - now constructor.
  - now constructor.
Qed.

Lemma doubled_unique (raw g g' : str) :
  doubled raw g -> doubled raw g' -> g = g'.
Proof.
  intros H. revert g'.
  induction H as [|f g _ IH|c f g Hc _ IH]; intros g' H';
    inversion H'; subst; try congruence.
  - f_equal. f_equal. now apply IH.
  - f_equal. now apply IH.
Qed.

Lemma quote_quoted (raw : str) : quoted raw (quote raw).
Proof. exists (escape raw). split; [apply doubled_escape | reflexivity]. Qed.

Lemma quoted_unique (raw field field' : str) :
  quoted raw field -> quoted raw field' -> field = field'.
Proof.
  intros (g & Hg & ->) (g' & Hg' & ->). now rewrite (doubled_unique Hg Hg').
Qed.

Lemma join_concat (sep p : str) (ps : list str) :
  join sep (p :: ps) = p ++ concat (List.map (fun q => sep ++ q) ps).
Proof.
  revert p; induction ps as [|q ps IH]; intros p.
  - cbn. now rewrite app_nil_r.
  - change (join sep (p :: q :: ps)) with (p ++ sep ++ join sep (q :: ps)).
    rewrite IH. cbn [List.map concat]. now rewrite <- app_assoc.
Qed.

End QuotedFacts.

Section PlatformFacts.

Variable Date_parse : str -> float.
Variable toLocaleString : float -> str.
Variable toFixed1 : float -> str.

Lemma join_cons (sep p : str) (ps : list str) :
  join sep (p :: ps)
  = p ++ match ps with [] => [] | _ => sep ++ join sep ps end.
Proof. destruct ps; cbn [join]; [now rewrite app_nil_r | reflexivity]. Qed.

Lemma row_quoted (ev : Event) :
  Forall (fun field => exists raw, field = [dquote] ++ escape raw ++ [dquote])
    (row Date_parse toLocaleString ev).
Proof. unfold row. cbn [List.map]. repeat constructor; eexists; reflexivity. Qed.

(** C10. The header row is the five names as they are: no double quote
    stands around or inside any of them, so none of them is a quoted field.
    Every row after it belongs to one kept event, in order, and holds five
    fields, which are the summary, the start and the end in the locale's
    words, the location and the description (empty when unset), each with
    its double quotes doubled and between two double quotes.  In the text
    the header line comes first, plain, and every data row follows on a line
    of its own.  A summary that reads Say, quote, hi, quote is written with
    both inner quotes doubled. *)
Theorem csv_header_plain_rows_quoted (events : list Event)
    (exportStartDate exportEndDate : str) :
  let kept :=
    filteredEvents Date_parse events exportStartDate exportEndDate in
  let rows :=
    csvRows Date_parse toLocaleString events exportStartDate exportEndDate in
  hd_error rows
    = Some [lit "Summary"; lit "Start Date"; lit "End Date"; lit "Location";
            lit "Description"] /\
  Forall (fun name => ~ In dquote name /\ forall raw, ~ quoted raw name)
    (hd [] rows) /\
  Forall2
    (fun ev r =>
       exists f1 f2 f3 f4 f5,
         r = [f1; f2; f3; f4; f5] /\
         quoted (summary ev) f1 /\
         quoted (toLocaleString (Date_parse (start ev))) f2 /\
         quoted (toLocaleString (Date_parse (end_ ev))) f3 /\
         quoted (or_empty (location ev)) f4 /\
         quoted (or_empty (description ev)) f5)
    kept (tl rows) /\
  csvContent Date_parse toLocaleString events exportStartDate exportEndDate
    = lit "Summary,Start Date,End Date,Location,Description"
        ++ concat (List.map (fun r => [10%N] ++ join (lit ",") r) (tl rows)) /\
  (forall raw field field',
     quoted raw field -> quoted raw field' -> field = field') /\
  (forall ev,
     summary ev = lit "Say " ++ [dquote] ++ lit "hi" ++ [dquote] ->
     hd_error (row Date_parse toLocaleString ev)
     = Some ([dquote] ++ lit "Say " ++ [dquote; dquote] ++ lit "hi"
               ++ [dquote; dquote] ++ [dquote])).
Proof.
  cbv zeta. rewrite csvContent_eq, csvRows_eq. cbn [hd_error hd tl].
  split; [reflexivity|].
  split.
  { apply Forall_forall. intros name Hin.
    assert (Hq : ~ In dquote name).
    { unfold headers in Hin. cbn [In] in Hin.
      repeat destruct Hin as [<-|Hin]; try contradiction;
        cbn; intros H; repeat destruct H as [H|H];
        try discriminate H; contradiction. }
    split; [exact Hq|]. intros raw (g & _ & ->). apply Hq. now left. }
  split.
  { induction (filteredEvents Date_parse events exportStartDate exportEndDate)
      as [|ev kept IH]; cbn [List.map]; constructor; [|exact IH].
    unfold row. cbn [List.map]. do 5 eexists.
    split; [reflexivity|]. repeat split; apply quote_quoted. }
  split; [now rewrite join_concat, !map_map|].
  split; [exact quoted_unique|].
  intros ev H. unfold row. cbn [List.map hd_error]. now rewrite H.
Qed.

Lemma reduce_add_map (f : Event -> float) (l : list Event) (a : float) :
  fold_left (fun acc ev => (acc + f ev)%float) l a
  = fold_left PrimFloat.add (List.map f l) a.
Proof. revert a; induction l as [|x l IH]; intros a; cbn; auto. Qed.

Lemma totalHours_eq (monthEvents : list Event) :
  totalHours Date_parse monthEvents
  = fold_left (fun acc ev => (acc + hours Date_parse ev)%float) monthEvents
      0%float.
Proof. reflexivity. Qed.

Lemma totalHours_nan_member (monthEvents : list Event) (ev : Event) :
  In ev monthEvents -> PrimFloat.is_nan (hours Date_parse ev) = true ->
  PrimFloat.is_nan (totalHours Date_parse monthEvents) = true.
Proof.
  intros Hin Hnan. rewrite totalHours_eq.
  assert (Hkeep : forall l a, PrimFloat.is_nan a = true ->
            PrimFloat.is_nan
              (fold_left (fun acc e => (acc + hours Date_parse e)%float) l a)
            = true).
  { induction l as [|x l IH]; intros a Ha; [exact Ha|].
    cbn [fold_left]. apply IH, add_nan. now left. }
  generalize 0%float as a. revert Hin.
  induction monthEvents as [|x l IH]; intros Hin a; [contradiction|].
  cbn [fold_left]. destruct Hin as [->|Hin].
  - apply Hkeep, add_nan. now right.
  - now apply IH.
Qed.

(** C6, as the code has it.  The total shown for a bucket is the
    one-decimal text of the sum, taken from 0 in the order of the events, of
    each event's end minus start in hours, the instants being the time
    values the engine parses from the event's start and end texts; every
    event adds its own quotient as it is.  When both texts parse to instants
    and the end is not later than the start, that quotient is negative or
    zero, and so is the total of a bucket of that one event; with the two
    instants exchanged the quotient is the same number with the opposite
    sign, so nothing is replaced by zero: an end one hour before the start
    adds -1, an end equal to the start adds 0.  When the start or the end
    does not parse, the quotient is NaN, which is neither negative nor zero,
    and the total of every bucket that holds the event is NaN. *)
Theorem total_hours_signed_sum (monthEvents : list Event) :
  totalHoursText Date_parse toFixed1 monthEvents
  = toFixed1
      (fold_left PrimFloat.add (List.map (hours Date_parse) monthEvents)
         0%float) /\
  (forall ev,
     totalHours Date_parse (monthEvents ++ [ev])
     = (totalHours Date_parse monthEvents + hours Date_parse ev)%float) /\
  (forall ev,
     PrimFloat.is_finite (Date_parse (start ev)) = true ->
     PrimFloat.is_finite (Date_parse (end_ ev)) = true ->
     PrimFloat.leb (Date_parse (end_ ev)) (Date_parse (start ev)) = true ->
     PrimFloat.leb (hours Date_parse ev) 0 = true /\
     PrimFloat.leb (totalHours Date_parse [ev]) 0 = true) /\
  (forall ev ev',
     PrimFloat.is_finite (Date_parse (start ev)) = true ->
     PrimFloat.is_finite (Date_parse (end_ ev)) = true ->
     PrimFloat.eqb (Date_parse (end_ ev)) (Date_parse (start ev)) = false ->
     Date_parse (start ev') = Date_parse (end_ ev) ->
     Date_parse (end_ ev') = Date_parse (start ev) ->
     hours Date_parse ev' = (- hours Date_parse ev)%float) /\
  (forall ev,
     Date_parse (start ev) = 1710079200000%float ->
     Date_parse (end_ ev) = 1710075600000%float ->
     hours Date_parse ev = (-1)%float /\
     totalHours Date_parse [ev] = (-1)%float /\
     totalHours Date_parse [ev; ev] = (-2)%float) /\
  (forall ev,
     Date_parse (start ev) = 1710079200000%float ->
     Date_parse (end_ ev) = 1710079200000%float ->
     hours Date_parse ev = 0%float /\
     totalHours Date_parse [ev] = 0%float) /\
  (forall ev,
     PrimFloat.is_nan (Date_parse (start ev)) = true \/
     PrimFloat.is_nan (Date_parse (end_ ev)) = true ->
     PrimFloat.is_nan (hours Date_parse ev) = true /\
     PrimFloat.leb (hours Date_parse ev) 0 = false /\
     (In ev monthEvents ->
      PrimFloat.is_nan (totalHours Date_parse monthEvents) = true)).
Proof.
  split; [|split; [|split; [|split; [|split; [|split]]]]].
  - unfold totalHoursText. now rewrite totalHours_eq, reduce_add_map.
  - intros ev. rewrite !totalHours_eq, fold_left_app. reflexivity.
  - intros ev Fs Fe Hle.
    pose proof (@hours_not_positive _ _ Fs Fe Hle) as Hh.
    fold (hours Date_parse ev) in Hh. split.
    + rewrite leb_spec. now apply signed_leb_zero.
    + rewrite totalHours_eq. cbn [fold_left].
      rewrite leb_spec, add_spec. apply signed_leb_zero.
      now apply SFadd_zero_signed.
  - intros ev ev' Fs Fe Hne Hs He. unfold hours. rewrite Hs, He.
    now apply (@hours_swap (Date_parse (start ev)) (Date_parse (end_ ev))).
  - intros ev Hs He. rewrite !totalHours_eq. unfold hours. cbn [fold_left].
    rewrite Hs, He. repeat split; vm_compute; reflexivity.
  - intros ev Hs He. rewrite !totalHours_eq. unfold hours. cbn [fold_left].
    rewrite Hs, He. repeat split; vm_compute; reflexivity.
  - intros ev Hnan.
    assert (Hh : PrimFloat.is_nan (hours Date_parse ev) = true)
      by (unfold hours; apply div_nan, sub_nan; tauto).
    split; [exact Hh|]. split.
    + rewrite leb_spec. apply is_nan_spec in Hh. now rewrite Hh.
    + intros Hin. now apply totalHours_nan_member with ev.
Qed.

End PlatformFacts.

(** C10 at an event whose summary holds two double quotes: the first field
    of its row has both doubled, between the two outer quotes. *)
Lemma csv_header_plain_rows_quoted_witness :
  hd_error
    (row SampleEngine.Date_parse SampleEngine.toLocaleString
       (mkEvent (lit "Say " ++ [dquote] ++ lit "hi" ++ [dquote])
          (lit "2024-03-10") (lit "2024-03-10") None None))
  = Some ([dquote] ++ lit "Say " ++ [dquote; dquote] ++ lit "hi"
            ++ [dquote; dquote] ++ [dquote]).
Proof.
  exact (proj2 (proj2 (proj2 (proj2 (proj2
    (csv_header_plain_rows_quoted SampleEngine.Date_parse
       SampleEngine.toLocaleString [] [] [])))))
    (mkEvent (lit "Say " ++ [dquote] ++ lit "hi" ++ [dquote])
       (lit "2024-03-10") (lit "2024-03-10") None None) eq_refl).
Defined.

(** C6 on the sample engine: a meeting that ends an hour before it starts
    adds a quotient that is negative or zero, and its bucket shows a total
    that is negative or zero. *)
Lemma total_hours_signed_sum_witness :
  PrimFloat.leb
    (hours SampleEngine.Date_parse
       (mkEvent (lit "Backwards") (lit "2024-03-10 14:00")
          (lit "2024-03-10 13:00") None None)) 0 = true /\
  PrimFloat.leb
    (totalHours SampleEngine.Date_parse
       [mkEvent (lit "Backwards") (lit "2024-03-10 14:00")
          (lit "2024-03-10 13:00") None None]) 0 = true.
Proof.
  exact (proj1 (proj2 (proj2
    (total_hours_signed_sum SampleEngine.Date_parse SampleEngine.toFixed1 [])))
    (mkEvent (lit "Backwards") (lit "2024-03-10 14:00")
       (lit "2024-03-10 13:00") None None) eq_refl eq_refl eq_refl).
Defined.

(** An event of a block that has a DTSTART line and no DTEND line. *)
Definition event_without_end : Event :=
  parseEvent
    ([13; 10]%N ++ lit "SUMMARY:Open end" ++ [13; 10]%N
       ++ lit "DTSTART:20240310T140000Z" ++ [13; 10]%N).

(** C6 as stated fails.  The end of an event without a DTEND line is the
    empty text, which is no date: the end is not a later instant than the
    start, yet the event adds neither a negative nor a zero duration but
    NaN, and the total of its bucket is NaN, whatever else the bucket
    holds. *)
Lemma total_hours_end_missing :
  start event_without_end = lit "2024-03-10 14:00" /\
  end_ event_without_end = [] /\
  PrimFloat.ltb (SampleEngine.Date_parse (start event_without_end))
    (SampleEngine.Date_parse (end_ event_without_end)) = false /\
  PrimFloat.leb (hours SampleEngine.Date_parse event_without_end) 0 = false /\
  PrimFloat.is_nan (hours SampleEngine.Date_parse event_without_end) = true /\
  PrimFloat.is_nan
    (totalHours SampleEngine.Date_parse
       [mkEvent (lit "Backwards") (lit "2024-03-10 14:00")
          (lit "2024-03-10 13:00") None None;
        event_without_end]) = true /\
  totalHoursText SampleEngine.Date_parse SampleEngine.toFixed1
    [event_without_end] = lit "NaN".
Proof. repeat split; vm_compute; reflexivity. Qed.

(** * Further properties of the code *)

(** ** What every parsed event looks like *)

Section ParsedShape.

Lemma dot_star_no_terminator (s : str) : no_terminator (dot_star s) = true.
Proof.
  induction s as [|c s IH]; [reflexivity|].
  cbn [dot_star]. destruct (isLineTerminator c) eqn:E; [reflexivity|].
  cbn [no_terminator forallb]. rewrite E. exact IH.
Qed.

Lemma field_regex_no_terminator (prefix : str -> option str) (b v : str) :
  str_match (field_regex prefix) b = Some v -> no_terminator v = true.
Proof.
  intros H. apply search_found in H as (pre & suf & _ & H).
  unfold field_regex in H. destruct (prefix suf); [|discriminate].
  injection H as <-. apply dot_star_no_terminator.
Qed.

Lemma no_terminator_app (a b : str) :
  no_terminator (a ++ b) = no_terminator a && no_terminator b.
Proof. apply forallb_app. Qed.

Lemma no_terminator_firstn (n : nat) (s : str) :
  no_terminator s = true -> no_terminator (firstn n s) = true.
Proof.
  revert s; induction n as [|n IH]; intros [|c s] H; try reflexivity.
  cbn [firstn no_terminator forallb] in *.
  apply andb_prop in H as [-> H]. now apply IH.
Qed.

Lemma no_terminator_skipn (n : nat) (s : str) :
  no_terminator s = true -> no_terminator (skipn n s) = true.
Proof.
  revert s; induction n as [|n IH]; intros [|c s] H; try reflexivity; [exact H|].
  cbn [skipn]. cbn [no_terminator forallb] in H.
  apply andb_prop in H as [_ H]. now apply IH.
Qed.

Lemma no_terminator_slice (s : str) (from to : nat) :
  no_terminator s = true -> no_terminator (slice s from to) = true.
Proof.
  intros H. now apply no_terminator_firstn, no_terminator_skipn.
Qed.

Lemma normalizeDate_no_terminator (tok : str) :
  no_terminator tok = true -> no_terminator (normalizeDate tok) = true.
Proof.
  intros H. unfold normalizeDate.
  destruct (Nat.eqb (length tok) 8);
    rewrite !no_terminator_app, !no_terminator_slice by exact H; reflexivity.
Qed.

Lemma normalizeDate_length (tok : str) : length (normalizeDate tok) <= 16.
Proof.
  unfold normalizeDate.
  destruct (Nat.eqb (length tok) 8); rewrite !length_app, !slice_length;
    cbn [lit List.map list_ascii_of_string length]; lia.
Qed.

Lemma parseEvent_shape (b : str) :
  no_terminator (summary (parseEvent b)) = true /\
  no_terminator (start (parseEvent b)) = true /\
  no_terminator (end_ (parseEvent b)) = true /\
  length (start (parseEvent b)) <= 16 /\
  length (end_ (parseEvent b)) <= 16 /\
  (forall d, description (parseEvent b) = Some d -> no_terminator d = true) /\
  (forall l, location (parseEvent b) = Some l -> no_terminator l = true).
Proof.
  destruct (parseEvent_fields b) as (-> & -> & -> & -> & ->).
  repeat split.
  - destruct (str_match summaryRegex b) eqn:E; [|reflexivity].
    apply (field_regex_no_terminator _ _ E).
  - destruct (str_match startRegex b) eqn:E; [|reflexivity].
    apply normalizeDate_no_terminator, (field_regex_no_terminator _ _ E).
  - destruct (str_match endRegex b) eqn:E; [|reflexivity].
    apply normalizeDate_no_terminator, (field_regex_no_terminator _ _ E).
  - destruct (str_match startRegex b); [apply normalizeDate_length | cbn; lia].
  - destruct (str_match endRegex b); [apply normalizeDate_length | cbn; lia].
  - intros d E. apply (field_regex_no_terminator _ _ E).
  - intros l E. apply (field_regex_no_terminator _ _ E).
Qed.

Lemma matchAll_weight (n : nat) (s : str) :
  length s < n -> 22 * length (matchAll s) <= length s.
Proof.
  revert s; induction n as [|n IH]; intros s Hn; [lia|].
  rewrite matchAll_eq.
  destruct (search eventRegex s) as [[cap rest]|] eqn:E; [|cbn; lia].
  apply search_found in E as (pre & suf & -> & E).
  apply eventRegex_sound in E as ->.
  rewrite !length_app in Hn |- *. cbn [length BEGIN_VEVENT END_VEVENT] in Hn |- *.
  specialize (IH rest). lia.
Qed.

End ParsedShape.

(** X1. Whatever the text, every event that [parseICS] returns is made of
    single-line fields: summary, start, end, and description and location
    when set, hold no line terminator; start and end are at most 16 code
    units long. *)
Theorem parsed_events_single_line (content : str) :
  Forall
    (fun e =>
       no_terminator (summary e) = true /\
       no_terminator (start e) = true /\
       no_terminator (end_ e) = true /\
       length (start e) <= 16 /\
       length (end_ e) <= 16 /\
       (forall d, description e = Some d -> no_terminator d = true) /\
       (forall l, location e = Some l -> no_terminator l = true))
    (parseICS content).
Proof.
  rewrite parseICS_map. apply Forall_forall. intros e He.
  apply in_map_iff in He as (b & <- & _). apply parseEvent_shape.
Qed.

(** X2. Every event costs at least the 22 code units of its two markers:
    22 times the number of events returned is at most the length of the
    text, so a text shorter than 22 code units gives no event. *)
Theorem parsed_events_bounded (content : str) :
  22 * length (parseICS content) <= length content /\
  (length content < 22 -> parseICS content = []).
Proof.
  assert (H : 22 * length (parseICS content) <= length content).
  { rewrite parseICS_map, length_map.
    apply (matchAll_weight (n := S (length content))). lia. }
  split; [exact H|].
  intros Hlt. destruct (parseICS content); [reflexivity | cbn [length] in H; lia].
Qed.

(** X2 at a text of 21 code units. *)
Lemma parsed_events_bounded_witness :
  parseICS (lit "BEGIN:VEVENTEND:VEVEN") = [].
Proof.
  refine (proj2 (parsed_events_bounded (lit "BEGIN:VEVENTEND:VEVEN")) _).
  cbn. lia.
Defined.

(** ** The row quoting can be read back *)

(** A reader for one quoted field, started after the opening quote: a doubled
    quote is a quote of the field, a single quote closes it.  The result is
    the field and the text after the closing quote. *)
Fixpoint read_quoted (s : str) : option (str * str) :=
  match s with
  | [] => None
  | c :: s' =>
      if N.eqb c dquote then
        match s' with
        | d :: s'' =>
            if N.eqb d dquote then
              match read_quoted s'' with
              | Some (f, rest) => Some (dquote :: f, rest)
              | None => None
              end
            else Some ([], s')
        | [] => Some ([], [])
        end
      else
        match read_quoted s' with
        | Some (f, rest) => Some (c :: f, rest)
        | None => None
        end
  end.

(** The line of one row: its quoted fields joined by commas. *)
Definition row_line (fields : list str) : str :=
  join (lit ",") (List.map quote fields).

Section QuotingFacts.

Lemma read_quoted_escape (f rest : str) :
  hd_error rest <> Some dquote ->
  read_quoted (escape f ++ dquote :: rest) = Some (f, rest).
Proof.
  intros Hrest. induction f as [|c f IH].
  - cbn. destruct rest as [|d rest]; [reflexivity|].
    destruct (N.eqb_spec d dquote) as [->|]; [now destruct Hrest | reflexivity].
  - cbn [escape flat_map]. fold (escape f).
    destruct (N.eqb c dquote) eqn:E.
    + apply N.eqb_eq in E as ->. cbn [app read_quoted].
      rewrite !N.eqb_refl, IH. reflexivity.
    + cbn [app read_quoted]. rewrite E, IH. reflexivity.
Qed.

Lemma row_line_cons (f : str) (fields : list str) :
  row_line (f :: fields)
  = dquote :: escape f
      ++ dquote :: match fields with
                   | [] => []
                   | _ => lit "," ++ row_line fields
                   end.
Proof.
  unfold row_line. cbn [List.map]. rewrite join_cons. unfold quote.
  cbn [app]. rewrite <- app_assoc. cbn [app].
  now destruct fields.
Qed.

Lemma row_tail_not_quote (fields : list str) :
  hd_error match fields with
           | [] => []
           | _ => lit "," ++ row_line fields
           end <> Some dquote.
Proof. destruct fields; cbn; discriminate. Qed.

End QuotingFacts.

(** X3. The quoting of a row loses nothing: two lists of fields with the
    same row line are the same list, whatever commas, quotes or newlines the
    fields hold, so two events with the same exported row agree on summary,
    on both date texts, on location and on description (unset and empty
    taken together); and a reader that undoes the doubling gets the first
    field of a row back, with the rest of the line. *)
Theorem row_quoting_injective (fields fields' : list str) :
  (row_line fields = row_line fields' -> fields = fields') /\
  (forall (Date_parse : str -> float) (toLocaleString : float -> str) ev ev',
     join (lit ",") (row Date_parse toLocaleString ev)
     = join (lit ",") (row Date_parse toLocaleString ev') ->
     summary ev = summary ev' /\
     toLocaleString (Date_parse (start ev))
       = toLocaleString (Date_parse (start ev')) /\
     toLocaleString (Date_parse (end_ ev))
       = toLocaleString (Date_parse (end_ ev')) /\
     or_empty (location ev) = or_empty (location ev') /\
     or_empty (description ev) = or_empty (description ev')) /\
  (forall f rest,
     hd_error rest <> Some dquote ->
     read_quoted (escape f ++ dquote :: rest) = Some (f, rest)).
Proof.
  assert (Hinj : forall fs gs, row_line fs = row_line gs -> fs = gs).
  { clear. induction fs as [|f fs IH]; intros [|g gs] H.
    - reflexivity.
    - rewrite row_line_cons in H. discriminate.
    - rewrite row_line_cons in H. discriminate.
    - rewrite !row_line_cons in H. injection H as H.
      apply (f_equal read_quoted) in H.
      rewrite !read_quoted_escape in H by apply row_tail_not_quote.
      injection H as -> H. f_equal.
      destruct fs as [|f' fs], gs as [|g' gs]; try discriminate;
        [reflexivity|].
      apply IH. cbn [lit List.map list_ascii_of_string app] in H.
      now injection H. }
  split; [apply Hinj|]. split; [|intros f rest; apply read_quoted_escape].
  intros Date_parse toLocaleString ev ev' H.
  unfold row in H. apply Hinj in H. now injection H.
Qed.

(** X3 at a field that holds a quote and a comma. *)
Lemma row_quoting_injective_witness :
  read_quoted (escape [dquote; 44%N] ++ dquote :: lit ",")
  = Some ([dquote; 44%N], lit ",").
Proof.
  refine (proj2 (proj2 (row_quoting_injective [] [])) _ _ _). discriminate.
Defined.

(** ** Grouping by month (page.tsx lines 527-541) *)

From Stdlib Require Import DecimalString Sorted Permutation.

(** [String(x)] for an integral number; [None] stands for NaN. *)
Definition numberToString (x : option Z) : str :=
  match x with
  | Some z => lit (NilZero.string_of_int (Z.to_int z))
  | None => lit "NaN"
  end.

(** [s.padStart(2, "0")]. *)
Definition padStart2 (s : str) : str :=
  if Nat.ltb (length s) 2 then repeat 48%N (2 - length s) ++ s else s.

(** A plain object used as a map from month keys to arrays: its own
    properties in insertion order.  Month keys hold a hyphen, so none of them
    is a property inherited from Object.prototype. *)
Definition Buckets : Type := list (str * list Event).

(** [acc[key]], [None] for undefined. *)
Fixpoint bucket (key : str) (acc : Buckets) : option (list Event) :=
  match acc with
  | [] => None
  | (k, evs) :: acc' => if str_eqb k key then Some evs else bucket key acc'
  end.

(** The two statements of the reducer: create the array when there is none
    under the key, then push the event onto it. *)
Fixpoint push_event (key : str) (event : Event) (acc : Buckets) : Buckets :=
  match acc with
  | [] => [(key, [event])]
  | (k, evs) :: acc' =>
      if str_eqb k key then (k, evs ++ [event]) :: acc'
      else (k, evs) :: push_event key event acc'
  end.

(** [Object.keys(acc)]. *)
Definition Object_keys (acc : Buckets) : list str := List.map fst acc.

(** The order of the default comparator of [sort]: strings by code units. *)
Fixpoint str_ltb (a b : str) : bool :=
  match a, b with
  | _, [] => false
  | [], _ :: _ => true
  | c :: a', d :: b' =>
      if N.ltb c d then true
      else if N.eqb c d then str_ltb a' b' else false
  end.

Fixpoint insert_sorted (k : str) (l : list str) : list str :=
  match l with
  | [] => [k]
  | x :: l' => if str_ltb x k then x :: insert_sorted k l' else k :: x :: l'
  end.

(** [keys.sort()].  The keys of an object are distinct, so every sorting
    algorithm returns the same array; insertion is the one written here. *)
Definition sort (keys : list str) : list str :=
  fold_right insert_sorted [] keys.

Section Grouping.

(** The engine: the time value of a date text, and the local-time year and
    month (0 to 11) of a time value, [None] for NaN. *)
Variable Date_parse : str -> float.
Variable getFullYear : float -> option Z.
Variable getMonth : float -> option Z.

(** The template literal of a month key: year, hyphen, month from 1 padded to
    two digits. *)
Definition monthKeyOfDate (date : float) : str :=
  numberToString (getFullYear date) ++ lit "-"
    ++ padStart2 (numberToString (option_map (fun m => (m + 1)%Z) (getMonth date))).

Definition monthKeyOf (event : Event) : str :=
  monthKeyOfDate (Date_parse (start event)).

Definition groupedEvents (events : list Event) : Buckets :=
  fold_left (fun acc event => push_event (monthKeyOf event) event acc) events [].

Definition sortedMonths (events : list Event) : list str :=
  sort (Object_keys (groupedEvents events)).

End Grouping.

Section GroupingFacts.

Variable key : Event -> str.

Lemma str_eqb_refl (a : str) : str_eqb a a = true.
Proof. now apply str_eqb_eq. Qed.

Lemma str_eqb_neq (a b : str) : a <> b -> str_eqb a b = false.
Proof.
  intros H. destruct (str_eqb a b) eqn:E; [|reflexivity].
  apply str_eqb_eq in E. contradiction.
Qed.

Lemma bucket_push (k k' : str) (e : Event) (acc : Buckets) :
  bucket k' (push_event k e acc)
  = if str_eqb k k' then
      Some (match bucket k' acc with Some evs => evs | None => [] end ++ [e])
    else bucket k' acc.
Proof.
  induction acc as [|[k0 evs] acc IH]; cbn [push_event bucket].
  - now destruct (str_eqb k k').
  - destruct (str_eqb k0 k) eqn:E0; cbn [bucket].
    + apply str_eqb_eq in E0 as ->. now destruct (str_eqb k k').
    + destruct (str_eqb k0 k') eqn:E1; [|exact IH].
      apply str_eqb_eq in E1 as ->.
      destruct (str_eqb k k') eqn:E2; [|reflexivity].
      apply str_eqb_eq in E2 as ->. now rewrite str_eqb_refl in E0.
Qed.

Lemma keys_push (k : str) (e : Event) (acc : Buckets) :
  Object_keys (push_event k e acc)
  = if existsb (fun k0 => str_eqb k0 k) (Object_keys acc) then Object_keys acc
    else Object_keys acc ++ [k].
Proof.
  induction acc as [|[k0 evs] acc IH]; [reflexivity|].
  cbn [push_event Object_keys List.map fst existsb].
  destruct (str_eqb k0 k); [reflexivity|].
  cbn [List.map fst orb]. fold (Object_keys (push_event k e acc)).
  fold (Object_keys acc). rewrite IH.
  now destruct (existsb _ (Object_keys acc)).
Qed.

Definition grouped_from (acc : Buckets) (events : list Event) : Buckets :=
  fold_left (fun acc event => push_event (key event) event acc) events acc.

Definition with_key (k : str) (events : list Event) : list Event :=
  filter (fun e => str_eqb (key e) k) events.

Lemma bucket_grouped_from (k : str) (events : list Event) (acc : Buckets) :
  bucket k (grouped_from acc events)
  = match bucket k acc, with_key k events with
    | None, [] => None
    | o, l => Some (match o with Some evs => evs | None => [] end ++ l)
    end.
Proof.
  revert acc; induction events as [|e events IH]; intros acc.
  - cbn. destruct (bucket k acc); [now rewrite app_nil_r | reflexivity].
  - cbn [grouped_from fold_left with_key filter].
    fold (grouped_from (push_event (key e) e acc) events).
    fold (with_key k events). rewrite IH, bucket_push.
    destruct (str_eqb (key e) k).
    + destruct (bucket k acc) as [evs|]; cbn [app]; rewrite <- ?app_assoc;
        now destruct (with_key k events).
    + reflexivity.
Qed.

Lemma keys_grouped_from_NoDup (events : list Event) (acc : Buckets) :
  NoDup (Object_keys acc) -> NoDup (Object_keys (grouped_from acc events)).
Proof.
  revert acc; induction events as [|e events IH]; intros acc H; [exact H|].
  apply IH. rewrite keys_push.
  destruct (existsb _ (Object_keys acc)) eqn:E; [exact H|].
  apply NoDup_app; [exact H | repeat constructor; intros [] |].
  intros x Hx [Hk|[]]. subst x.
  assert (existsb (fun k0 => str_eqb k0 (key e)) (Object_keys acc) = true)
    by (apply existsb_exists; exists (key e); split;
        [exact Hx | apply str_eqb_refl]).
  congruence.
Qed.

Lemma in_keys_bucket (k : str) (acc : Buckets) :
  In k (Object_keys acc) <-> bucket k acc <> None.
Proof.
  induction acc as [|[k0 evs] acc IH]; cbn [Object_keys List.map fst In bucket].
  - split; [contradiction | congruence].
  - destruct (str_eqb k0 k) eqn:E.
    + apply str_eqb_eq in E. split; [discriminate | now left].
    + fold (Object_keys acc). rewrite <- IH. split; [|now right].
      intros [->|H]; [|exact H]. now rewrite str_eqb_refl in E.
Qed.

Lemma with_key_nonempty (k : str) (events : list Event) :
  with_key k events <> [] <-> exists e, In e events /\ key e = k.
Proof.
  unfold with_key. split.
  - destruct (filter _ events) as [|e l] eqn:E; [congruence|]. intros _.
    assert (H : In e (filter (fun e => str_eqb (key e) k) events))
      by (rewrite E; now left).
    apply filter_In in H as [H1 H2]. apply str_eqb_eq in H2. eauto.
  - intros (e & H1 & H2) E.
    assert (H : In e (filter (fun e => str_eqb (key e) k) events))
      by (apply filter_In; split; [exact H1 | now apply str_eqb_eq]).
    rewrite E in H. contradiction.
Qed.

End GroupingFacts.

(** Case analysis on every comparison of code units in the goal. *)
Ltac n_cases :=
  repeat
    match goal with
    | |- context [N.ltb ?x ?y] => destruct (N.ltb_spec x y)
    | |- context [N.eqb ?x ?y] => destruct (N.eqb_spec x y)
    end;
  try lia; try congruence.

Section SortFacts.

Lemma str_ltb_irrefl (a : str) : str_ltb a a = false.
Proof.
  induction a as [|c a IH]; [reflexivity|].
  cbn [str_ltb]. now rewrite N.ltb_irrefl, N.eqb_refl.
Qed.

Lemma str_ltb_asym (a b : str) : str_ltb a b = true -> str_ltb b a = false.
Proof.
  revert b; induction a as [|c a IH]; intros [|d b]; cbn [str_ltb];
    try congruence.
  n_cases. subst d. apply IH.
Qed.

Lemma str_ltb_total (a b : str) :
  str_ltb a b = false -> str_ltb b a = false -> a = b.
Proof.
  revert b; induction a as [|c a IH]; intros [|d b]; cbn [str_ltb];
    try congruence.
  n_cases. subst d. intros H1 H2. f_equal. now apply IH.
Qed.

Lemma str_ltb_trans (a b c : str) :
  str_ltb a b = true -> str_ltb b c = true -> str_ltb a c = true.
Proof.
  revert b c; induction a as [|x a IH]; intros [|y b] [|z c]; cbn [str_ltb];
    try congruence.
  n_cases. subst. apply IH.
Qed.

Lemma in_insert_sorted (x k : str) (l : list str) :
  In x (insert_sorted k l) <-> x = k \/ In x l.
Proof.
  induction l as [|y l IH]; cbn [insert_sorted In]; [intuition|].
  destruct (str_ltb y k); cbn [In]; rewrite ?IH; intuition.
Qed.

Lemma in_sort (x : str) (l : list str) : In x (sort l) <-> In x l.
Proof.
  induction l as [|y l IH]; [reflexivity|].
  cbn [sort fold_right In]. fold (sort l). rewrite in_insert_sorted, IH.
  intuition.
Qed.

Lemma NoDup_insert_sorted (k : str) (l : list str) :
  ~ In k l -> NoDup l -> NoDup (insert_sorted k l).
Proof.
  induction l as [|y l IH]; intros Hk Hl; cbn [insert_sorted].
  - repeat constructor. intros [].
  - destruct (str_ltb y k).
    + inversion_clear Hl. constructor.
      * rewrite in_insert_sorted. intros [->|H']; [apply Hk; now left | auto].
      * apply IH; [intros H'; apply Hk; now right | assumption].
    + now constructor.
Qed.

Lemma NoDup_sort (l : list str) : NoDup l -> NoDup (sort l).
Proof.
  induction 1 as [|y l Hy Hl IH]; [constructor|].
  cbn [sort fold_right]. fold (sort l).
  apply NoDup_insert_sorted; [now rewrite in_sort | exact IH].
Qed.

(** Strictly ascending, each key before the next. *)
Definition ascending : list str -> Prop :=
  Sorted (fun a b => str_ltb a b = true).

Lemma ascending_insert_sorted (k : str) (l : list str) :
  ~ In k l -> ascending l -> ascending (insert_sorted k l).
Proof.
  unfold ascending. induction l as [|y l IH]; intros Hk Hl; cbn [insert_sorted].
  - repeat constructor.
  - destruct (str_ltb y k) eqn:E.
    + inversion_clear Hl as [|? ? Hs Hh]. constructor.
      * apply IH; [intros H'; apply Hk; now right | exact Hs].
      * destruct l as [|z l]; cbn [insert_sorted].
        -- now constructor.
        -- inversion_clear Hh. destruct (str_ltb z k); now constructor.
    + constructor; [exact Hl|]. constructor.
      destruct (str_ltb k y) eqn:E'; [reflexivity|].
      exfalso. apply Hk. left. now apply str_ltb_total.
Qed.

Lemma ascending_sort (l : list str) : NoDup l -> ascending (sort l).
Proof.
  induction 1 as [|y l Hy Hl IH]; [constructor|].
  cbn [sort fold_right]. fold (sort l).
  apply ascending_insert_sorted; [now rewrite in_sort | exact IH].
Qed.

Lemma flat_map_nil (A B : Type) (l : list A) :
  flat_map (fun _ : A => ([] : list B)) l = [].
Proof. induction l; auto. Qed.

End SortFacts.

Section PartitionFacts.

Variable key : Event -> str.

Lemma with_key_other (x : Event) (l : list Event) (ks : list str) :
  ~ In (key x) ks ->
  flat_map (fun k => with_key key k (x :: l)) ks
  = flat_map (fun k => with_key key k l) ks.
Proof.
  induction ks as [|k ks IH]; intros H; [reflexivity|].
  cbn [flat_map]. rewrite IH by (intros H'; apply H; now right).
  f_equal. unfold with_key. cbn [filter].
  rewrite str_eqb_neq; [reflexivity|]. intros E. apply H. now left.
Qed.

Lemma with_key_insert (x : Event) (l : list Event) (ks : list str) :
  NoDup ks -> In (key x) ks ->
  Permutation (x :: flat_map (fun k => with_key key k l) ks)
    (flat_map (fun k => with_key key k (x :: l)) ks).
Proof.
  induction 1 as [|k ks Hk Hks IH]; intros Hin; [contradiction|].
  cbn [flat_map]. destruct (str_eqb (key x) k) eqn:E.
  - apply str_eqb_eq in E. subst k.
    rewrite with_key_other by exact Hk.
    unfold with_key at 3. cbn [filter]. rewrite str_eqb_refl.
    reflexivity.
  - unfold with_key at 3. cbn [filter]. rewrite E.
    fold (with_key key k l).
    destruct Hin as [->|Hin]; [now rewrite str_eqb_refl in E|].
    etransitivity; [apply Permutation_middle|].
    apply Permutation_app_head, IH, Hin.
Qed.

(** Distinct keys that cover the events split them without loss. *)
Lemma partition_by_key (ks : list str) (l : list Event) :
  NoDup ks -> (forall e, In e l -> In (key e) ks) ->
  Permutation l (flat_map (fun k => with_key key k l) ks).
Proof.
  intros Hks. induction l as [|x l IH]; intros Hcover.
  - unfold with_key. cbn [filter]. now rewrite flat_map_nil.
  - etransitivity; [|apply with_key_insert; [exact Hks | apply Hcover; now left]].
    apply perm_skip, IH. intros e He. apply Hcover. now right.
Qed.

End PartitionFacts.

Section GroupingTheorems.

Variable Date_parse : str -> float.
Variable getFullYear : float -> option Z.
Variable getMonth : float -> option Z.

Let key : Event -> str := monthKeyOf Date_parse getFullYear getMonth.
Let grouped : list Event -> Buckets := groupedEvents Date_parse getFullYear getMonth.
Let months : list Event -> list str := sortedMonths Date_parse getFullYear getMonth.

Lemma bucket_grouped (k : str) (events : list Event) :
  bucket k (grouped events)
  = match with_key key k events with [] => None | l => Some l end.
Proof.
  unfold grouped, groupedEvents. fold key.
  exact (bucket_grouped_from key k events []).
Qed.

Lemma in_months (k : str) (events : list Event) :
  In k (months events) <-> exists e, In e events /\ key e = k.
Proof.
  unfold months, sortedMonths. rewrite in_sort, in_keys_bucket.
  fold (grouped events). rewrite bucket_grouped, <- with_key_nonempty.
  destruct (with_key key k events); split; congruence.
Qed.

Lemma months_NoDup (events : list Event) : NoDup (months events).
Proof.
  apply NoDup_sort.
  exact (keys_grouped_from_NoDup (monthKeyOf Date_parse getFullYear getMonth)
           events [] (NoDup_nil _)).
Qed.

(** X4. Grouping loses and invents nothing.  The bucket under a key is
    defined exactly when some event has that month key, and it then holds
    the events with that key in their source order; the buckets taken in
    the order of the sorted keys are a rearrangement of the event list, so
    every event is in one bucket and in one only. *)
Theorem month_buckets_partition (events : list Event) :
  (forall k,
     bucket k (grouped events)
     = match filter (fun e => str_eqb (key e) k) events with
       | [] => None
       | l => Some l
       end) /\
  Permutation events
    (flat_map
       (fun k => match bucket k (grouped events) with
                 | Some evs => evs
                 | None => []
                 end)
       (months events)).
Proof.
  split; [intros k; apply bucket_grouped|].
  assert (Hp : Permutation events
                 (flat_map (fun k => with_key key k events) (months events))).
  { apply partition_by_key; [apply months_NoDup|].
    intros e He. apply in_months. eauto. }
  erewrite flat_map_ext; [exact Hp|].
  intros k. cbv beta. rewrite bucket_grouped.
  now destruct (with_key key k events).
Qed.

(** X5. The sorted month keys are exactly the keys of the events, each
    once, in strictly ascending order of their code units; there is no key
    exactly when there is no event. *)
Theorem sorted_months_ascending (events : list Event) :
  StronglySorted (fun a b => str_ltb a b = true) (months events) /\
  NoDup (months events) /\
  (forall k, In k (months events) <-> exists e, In e events /\ key e = k) /\
  (months events = [] <-> events = []).
Proof.
  split; [|split; [apply months_NoDup | split; [intros k; apply in_months|]]].
  - apply Sorted_StronglySorted.
    + intros a b c. apply str_ltb_trans.
    + apply ascending_sort.
      exact (keys_grouped_from_NoDup (monthKeyOf Date_parse getFullYear getMonth)
               events [] (NoDup_nil _)).
  - split.
    + intros H. destruct events as [|e events]; [reflexivity|].
      assert (Hin : In (key e) (months (e :: events)))
        by (apply in_months; exists e; split; [now left | reflexivity]).
      rewrite H in Hin. contradiction.
    + now intros ->.
Qed.

Lemma monthKey_default (ks : list str) (today : str) (st : State) :
  (In today ks -> monthKey ks today st = Some today) /\
  (~ In today ks -> monthKey ks today st = hd_error ks).
Proof.
  unfold monthKey, displayedIndex, currentMonthIndex_const. split.
  - intros Hin. destruct (findIndex_found _ _ Hin) as (H0 & Hnth).
    destruct ks as [|m ks]; [contradiction|].
    destruct (Z.geb_spec (findIndex (fun month => str_eqb month today) (m :: ks)) 0);
      [exact Hnth | lia].
  - intros Hn. rewrite (findIndex_absent _ _ Hn). now destruct ks.
Qed.

(** X6. Rendering never reads a missing bucket.  With no event there is no
    displayed month; with at least one event the displayed key is today's
    month key when some event has it and the least key otherwise, the bucket
    under it is defined and not empty, and it holds the events with that
    key. *)
Theorem displayed_bucket_defined (events : list Event) (currentMonthKey : str)
    (st : State) :
  (events = [] -> monthKey (months events) currentMonthKey st = None) /\
  (events <> [] ->
     exists k evs,
       monthKey (months events) currentMonthKey st = Some k /\
       bucket k (grouped events) = Some evs /\
       evs <> [] /\
       evs = filter (fun e => str_eqb (key e) k) events /\
       ((exists e, In e events /\ key e = currentMonthKey) ->
        k = currentMonthKey) /\
       ((forall e, In e events -> key e <> currentMonthKey) ->
        hd_error (months events) = Some k)).
Proof.
  split; [now intros ->|].
  intros Hne.
  destruct (monthKey_default (months events) currentMonthKey st) as [Hin Hout].
  assert (Hk : exists k, monthKey (months events) currentMonthKey st = Some k /\
                 In k (months events) /\
                 ((exists e, In e events /\ key e = currentMonthKey) ->
                  k = currentMonthKey) /\
                 ((forall e, In e events -> key e <> currentMonthKey) ->
                  hd_error (months events) = Some k)).
  { destruct (in_dec (list_eq_dec N.eq_dec) currentMonthKey (months events))
      as [H|H].
    - exists currentMonthKey. split; [auto|]. split; [exact H|].
      split; [reflexivity|].
      intros Hno. apply in_months in H as (e & He & Hke).
      now destruct (Hno e He).
    - rewrite (Hout H).
      destruct (months events) as [|k ks] eqn:E.
      + destruct events as [|e events]; [congruence|].
        assert (Hin' : In (key e) (months (e :: events)))
          by (apply in_months; exists e; split; [now left | reflexivity]).
        rewrite E in Hin'. contradiction.
      + exists k. split; [reflexivity|]. split; [now left|].
        split; [|reflexivity].
        intros Hex. apply in_months in Hex. rewrite E in Hex. contradiction. }
  destruct Hk as (k & Hm & Hink & Htoday & Hleast).
  exists k, (filter (fun e => str_eqb (key e) k) events).
  apply in_months, (with_key_nonempty key) in Hink.
  unfold with_key in Hink.
  repeat split; auto.
  rewrite bucket_grouped. unfold with_key.
  now destruct (filter (fun e => str_eqb (key e) k) events).
Qed.

End GroupingTheorems.

(** ** The order of the keys is the order of the months *)

Definition yearText (y : Z) : str := numberToString (Some y).

Definition monthText (m : Z) : str :=
  padStart2 (numberToString (Some (m + 1)%Z)).

Section KeyOrder.

Lemma str_ltb_app_same_length (a a' x x' : str) :
  length a = length a' ->
  str_ltb (a ++ x) (a' ++ x')
  = if str_eqb a a' then str_ltb x x' else str_ltb a a'.
Proof.
  revert a'; induction a as [|c a IH]; intros [|d a'] H; try discriminate H.
  - reflexivity.
  - injection H as H. cbn [app str_ltb str_eqb]. rewrite (IH _ H).
    n_cases; subst; cbn [andb]; now destruct (str_eqb a a').
Qed.

(** One pass over the years from [y]: each is written with four digits and
    sorts after the one before it, whose text is [prev]. *)
Fixpoint years_check (fuel : nat) (y : Z) (prev : str) : bool :=
  match fuel with
  | O => true
  | S fuel' =>
      let t := yearText y in
      Nat.eqb (length t) 4 && str_ltb prev t && years_check fuel' (y + 1) t
  end.

Lemma years_checked :
  years_check (Z.to_nat 8999) 1001 (yearText 1000) = true /\
  length (yearText 1000) = 4.
Proof. split; [vm_compute; reflexivity | reflexivity]. Qed.

Lemma years_check_step (fuel : nat) (y : Z) (prev : str) (k : nat) :
  years_check fuel y prev = true -> k < fuel ->
  length (yearText (y + Z.of_nat k)) = 4 /\
  str_ltb (match k with
           | O => prev
           | S k' => yearText (y + Z.of_nat k')
           end)
    (yearText (y + Z.of_nat k)) = true.
Proof.
  revert y prev k; induction fuel as [|fuel IH]; intros y prev k H Hk; [lia|].
  cbn [years_check] in H. cbv zeta in H.
  apply andb_prop in H as [H H3]. apply andb_prop in H as [H1 H2].
  apply Nat.eqb_eq in H1.
  destruct k as [|k].
  - rewrite Z.add_0_r. auto.
  - specialize (IH (y + 1)%Z (yearText y) k H3 ltac:(lia)).
    replace (y + 1 + Z.of_nat k)%Z with (y + Z.of_nat (S k))%Z in IH by lia.
    destruct IH as [IH1 IH2]. split; [exact IH1|].
    destruct k as [|k]; [now rewrite Z.add_0_r|].
    replace (y + 1 + Z.of_nat k)%Z with (y + Z.of_nat (S k))%Z in IH2 by lia.
    exact IH2.
Qed.

Lemma year_step (y : Z) :
  (1000 <= y <= 9998)%Z ->
  length (yearText y) = 4 /\ length (yearText (y + 1)) = 4 /\
  str_ltb (yearText y) (yearText (y + 1)) = true.
Proof.
  intros H. destruct years_checked as [Hc H1000].
  assert (Hlen : forall z, (1000 <= z <= 9999)%Z -> length (yearText z) = 4).
  { intros z Hz. destruct (Z.eq_dec z 1000) as [->|Hne]; [exact H1000|].
    destruct (@years_check_step _ _ _ (Z.to_nat (z - 1001)) Hc) as [Hl _]; [lia|].
    replace (1001 + Z.of_nat (Z.to_nat (z - 1001)))%Z with z in Hl by lia.
    exact Hl. }
  split; [apply Hlen; lia|]. split; [apply Hlen; lia|].
  destruct (@years_check_step _ _ _ (Z.to_nat (y - 1000)) Hc) as [_ Hs]; [lia|].
  replace (1001 + Z.of_nat (Z.to_nat (y - 1000)))%Z with (y + 1)%Z in Hs by lia.
  destruct (Z.to_nat (y - 1000)) as [|k] eqn:E.
  - assert (y = 1000%Z) by lia. subst y. exact Hs.
  - replace (1001 + Z.of_nat k)%Z with y in Hs by lia. exact Hs.
Qed.

Lemma year_length (y : Z) : (1000 <= y <= 9999)%Z -> length (yearText y) = 4.
Proof.
  intros H. destruct (Z.eq_dec y 9999) as [->|Hn].
  - apply (year_step (y := 9998)). lia.
  - apply year_step. lia.
Qed.

Lemma year_ascending (y : Z) (k : nat) :
  (1000 <= y)%Z -> (y + Z.of_nat (S k) <= 9999)%Z ->
  str_ltb (yearText y) (yearText (y + Z.of_nat (S k))) = true.
Proof.
  intros Hn. induction k as [|k IH]; intros Hk.
  - apply year_step. lia.
  - apply str_ltb_trans with (b := yearText (y + Z.of_nat (S k)));
      [apply IH; lia|].
    replace (y + Z.of_nat (S (S k)))%Z with (y + Z.of_nat (S k) + 1)%Z by lia.
    apply year_step. lia.
Qed.

Lemma year_order (y y' : Z) :
  (1000 <= y <= 9999)%Z -> (1000 <= y' <= 9999)%Z ->
  (str_ltb (yearText y) (yearText y') = true <-> (y < y')%Z) /\
  (str_eqb (yearText y) (yearText y') = true <-> y = y').
Proof.
  intros Hn Hn'.
  assert (Hlt : forall a b, (1000 <= a)%Z -> (b <= 9999)%Z -> (a < b)%Z ->
                  str_ltb (yearText a) (yearText b) = true).
  { intros a b Ha Hb Hab.
    replace b with (a + Z.of_nat (S (Z.to_nat (b - a - 1))))%Z by lia.
    apply year_ascending; lia. }
  split; split.
  - intros H. destruct (Z.lt_trichotomy y y') as [|[->|Hgt]]; [assumption| |].
    + now rewrite str_ltb_irrefl in H.
    + apply Hlt in Hgt; try lia. apply str_ltb_asym in Hgt. congruence.
  - apply Hlt; lia.
  - intros H. apply str_eqb_eq in H.
    destruct (Z.lt_trichotomy y y') as [Hl|[->|Hg]]; [|reflexivity|].
    + apply Hlt in Hl; try lia. rewrite H, str_ltb_irrefl in Hl. discriminate.
    + apply Hlt in Hg; try lia. rewrite H, str_ltb_irrefl in Hg. discriminate.
  - intros ->. apply str_eqb_refl.
Qed.

Lemma months_checked :
  forallb
    (fun i =>
       forallb
         (fun j =>
            Bool.eqb
              (str_ltb (monthText (Z.of_nat i)) (monthText (Z.of_nat j)))
              (Nat.ltb i j))
         (seq 0 12))
    (seq 0 12)
  = true.
Proof. vm_compute. reflexivity. Qed.

Lemma month_order (m m' : Z) :
  (0 <= m <= 11)%Z -> (0 <= m' <= 11)%Z ->
  (str_ltb (monthText m) (monthText m') = true <-> (m < m')%Z).
Proof.
  intros Hm Hm'. pose proof months_checked as Hc.
  rewrite forallb_forall in Hc. specialize (Hc (Z.to_nat m)).
  rewrite in_seq in Hc. specialize (Hc ltac:(lia)).
  rewrite forallb_forall in Hc. specialize (Hc (Z.to_nat m')).
  rewrite in_seq in Hc. specialize (Hc ltac:(lia)).
  rewrite !Z2Nat.id in Hc by lia.
  apply Bool.eqb_prop in Hc. rewrite Hc, Nat.ltb_lt. lia.
Qed.

End KeyOrder.

(** X7. The sort is chronological for four-digit years.  For two dates
    whose local years lie between 1000 and 9999, with months 0 to 11, the
    month key of the first sorts before the key of the second exactly when
    its year is smaller, or the years agree and its month is smaller. *)
Theorem month_keys_chronological (getFullYear getMonth : float -> option Z)
    (d d' : float) (y m y' m' : Z) :
  getFullYear d = Some y -> getMonth d = Some m ->
  getFullYear d' = Some y' -> getMonth d' = Some m' ->
  (1000 <= y <= 9999)%Z -> (1000 <= y' <= 9999)%Z ->
  (0 <= m <= 11)%Z -> (0 <= m' <= 11)%Z ->
  (str_ltb (monthKeyOfDate getFullYear getMonth d)
     (monthKeyOfDate getFullYear getMonth d') = true
   <-> (y < y' \/ (y = y' /\ m < m'))%Z).
Proof.
  intros Hy Hm Hy' Hm' Ry Ry' Rm Rm'.
  unfold monthKeyOfDate. rewrite Hy, Hm, Hy', Hm'. cbn [option_map].
  fold (yearText y) (yearText y') (monthText m) (monthText m').
  rewrite str_ltb_app_same_length by (now rewrite !year_length).
  destruct (str_eqb (yearText y) (yearText y')) eqn:E;
    destruct (year_order Ry Ry') as [Hlt Heq].
  - apply Heq in E. subst y'.
    change (str_ltb (lit "-" ++ monthText m) (lit "-" ++ monthText m'))
      with (str_ltb (monthText m) (monthText m')).
    rewrite month_order by assumption. lia.
  - rewrite Hlt. split; [auto|]. intros [H|[H _]]; [exact H|].
    subst y'. rewrite str_eqb_refl in E. discriminate.
Qed.

(** ** The sample engine's calendar, for instances

    Local time is UTC; the year and month of a time value are read off the
    proleptic Gregorian calendar. *)

Module SampleClock.

(** The integer a finite float stands for, rounded down. *)
Definition floor (t : float) : option Z :=
  match Prim2SF t with
  | S754_zero _ => Some 0%Z
  | S754_finite s m e =>
      let magnitude :=
        if (0 <=? e)%Z then (Z.pos m * 2 ^ e)%Z else (Z.pos m / 2 ^ (- e))%Z in
      Some (if s then (- magnitude)%Z else magnitude)
  | _ => None
  end.

(** Year, month (0 to 11) and day of the month of a day number. *)
Definition civil_from_days (days : Z) : Z * Z * Z :=
  let z := (days + 719468)%Z in
  let era := (z / 146097)%Z in
  let doe := (z - era * 146097)%Z in
  let yoe := ((doe - doe / 1460 + doe / 36524 - doe / 146096) / 365)%Z in
  let doy := (doe - (365 * yoe + yoe / 4 - yoe / 100))%Z in
  let mp := ((5 * doy + 2) / 153)%Z in
  let d := (doy - (153 * mp + 2) / 5 + 1)%Z in
  let m := if (mp <? 10)%Z then (mp + 3)%Z else (mp - 9)%Z in
  let y := (yoe + era * 400 + (if (m <=? 2)%Z then 1 else 0))%Z in
  (y, (m - 1)%Z, d).

Definition civil (t : float) : option (Z * Z * Z) :=
  match floor t with
  | Some ms => Some (civil_from_days (ms / 86400000))
  | None => None
  end.

Definition getFullYear (t : float) : option Z :=
  match civil t with Some (y, _, _) => Some y | None => None end.

Definition getMonth (t : float) : option Z :=
  match civil t with Some (_, m, _) => Some m | None => None end.

Definition getDate (t : float) : option Z :=
  match civil t with Some (_, _, d) => Some d | None => None end.

End SampleClock.

(** X7 on the sample engine: March 2024 sorts before June 2024. *)
Lemma month_keys_chronological_witness :
  str_ltb
    (monthKeyOfDate SampleClock.getFullYear SampleClock.getMonth
       1709251200000%float)
    (monthKeyOfDate SampleClock.getFullYear SampleClock.getMonth
       1717200000000%float) = true
  <-> (2024 < 2024 \/ (2024 = 2024 /\ 2 < 5))%Z.
Proof.
  apply (@month_keys_chronological SampleClock.getFullYear SampleClock.getMonth
           1709251200000%float 1717200000000%float 2024 2 2024 5);
    try reflexivity; lia.
Defined.

(** ** The import handlers always settle (page.tsx lines 24-62, 164-214) *)

(** The cells no import handler writes. *)
Definition same_settings (st st' : State) : Prop :=
  url st' = url st /\
  showExportModal st' = showExportModal st /\
  exportStartDate st' = exportStartDate st /\
  exportEndDate st' = exportEndDate st /\
  currentMonthIndex st' = currentMonthIndex st.

(** The message a failed URL import shows. *)
Definition url_failure_message (o : FetchOutcome) : str :=
  match o with
  | FetchRejects (ErrorObject message) => message
  | FetchRejects OtherValue => lit "Failed to import calendar"
  | ResponseNotOk errorField => or_else errorField (lit "Failed to fetch ICS file")
  | ResponseBadContent typeError => typeError
  | ResponseOk _ => []
  end.

(** X8. No import handler lets a throw escape, and none leaves the loading
    flag set: after an import by URL (with a URL to use), by file input or
    by drop (with a file), whatever the awaited step came to, loading is
    false; the error is empty after a success, the thrown message or the
    handler's fixed text after a failure; the URL, the export dialog, the
    export dates and the month index are never written, so a new import
    does not reset the month index. *)
Theorem import_always_settles (st : State) :
  (forall urlToFetch outcome,
     let st' := after (handleUrlImport urlToFetch outcome) st in
     fst (handleUrlImport urlToFetch outcome st) = inr tt /\
     same_settings st st' /\
     dragActive st' = dragActive st /\
     (or_else urlToFetch (url st) <> [] ->
      loading st' = false /\ error st' = url_failure_message outcome) /\
     (or_else urlToFetch (url st) = [] ->
      loading st' = loading st /\ events st' = events st /\
      error st' = lit "Please enter a calendar URL")) /\
  (forall file,
     let st' := after (handleFileUpload file) st in
     let st'' := after (handleDrop file) st in
     fst (handleFileUpload file st) = inr tt /\
     fst (handleDrop file st) = inr tt /\
     same_settings st st' /\ same_settings st st'' /\
     dragActive st' = dragActive st /\ dragActive st'' = false /\
     (file = None -> st' = st) /\
     (file <> None ->
      loading st' = false /\ loading st'' = false /\
      error st' = (if file_failed file then lit "Error parsing ICS file" else []) /\
      error st'' = error st')).
Proof.
  split.
  - intros urlToFetch outcome. cbv zeta.
    unfold after, handleUrlImport, bind, get, same_settings.
    destruct (or_else urlToFetch (url st)) eqn:E.
    + cbn. repeat split; congruence.
    + destruct outcome as [[?|]| ? | ? | ?]; cbn; repeat split; congruence.
  - intros file. cbv zeta. unfold same_settings.
    destruct file as [[[?|]|?]|]; cbn; repeat split; try congruence;
      now destruct st.
Qed.

(** X8 at a page that is loading and shows an old error. *)
Lemma import_always_settles_witness :
  loading
    (after (handleUrlImport (lit "https://example.org/a.ics")
              (FetchRejects OtherValue))
       (mkState [] [] true (lit "old") false false [] [] 2)) = false /\
  error
    (after (handleUrlImport (lit "https://example.org/a.ics")
              (FetchRejects OtherValue))
       (mkState [] [] true (lit "old") false false [] [] 2))
  = lit "Failed to import calendar".
Proof.
  refine (proj1 (proj2 (proj2 (proj2 (proj1
    (import_always_settles (mkState [] [] true (lit "old") false false [] [] 2))
    (lit "https://example.org/a.ics") (FetchRejects OtherValue))))) _).
  discriminate.
Defined.

(** ** The fetch-ics route and the import through it *)

Module FetchIcs.

(** What [request.json()] comes to: a rejection, or a body whose url field
    is a string (empty when the field is missing or empty, which is
    falsy). *)
Inductive RequestBody :=
| BodyRejects
| BodyJson (url : str).

(** What the route's own [fetch(url)] comes to: a rejection, or a response
    with its ok flag, its status text, and its text ([None] when
    [response.text()] rejects). *)
Inductive Upstream :=
| UpstreamRejects
| UpstreamResponse (ok : bool) (statusText : str) (text : option str).

Inductive Body :=
| ErrorBody (error : str)
| ContentBody (content : str).

Record Response := mkResponse { status : Z; body : Body }.

(** The try block: a response, or the Error it throws. *)
Definition attempt (request : RequestBody) (fetch : str -> Upstream)
    : Thrown + Response :=
  match request with
  | BodyRejects => inl OtherValue
  | BodyJson url =>
      match url with
      | [] => inr (mkResponse 400 (ErrorBody (lit "URL is required")))
      | _ =>
          match fetch url with
          | UpstreamRejects => inl OtherValue
          | UpstreamResponse ok statusText text =>
              if negb ok then
                inl (ErrorObject (lit "Failed to fetch ICS file: " ++ statusText))
              else
                match text with
                | None => inl OtherValue
                | Some content => inr (mkResponse 200 (ContentBody content))
                end
          end
      end
  end.

(** [POST]: the catch block answers every throw with the same body. *)
Definition POST (request : RequestBody) (fetch : str -> Upstream) : Response :=
  match attempt request fetch with
  | inr response => response
  | inl _ => mkResponse 500 (ErrorBody (lit "Failed to fetch ICS file"))
  end.

(** [response.ok]. *)
Definition ok (r : Response) : bool :=
  ((200 <=? status r) && (status r <=? 299))%Z.

End FetchIcs.

(** What the page's awaited steps come to when the route answers: the ok
    flag of the answer and its JSON body.  [typeError] is the engine's
    message for a body without a content string. *)
Definition outcome_of_response (typeError : str) (r : FetchIcs.Response)
    : FetchOutcome :=
  if FetchIcs.ok r then
    match FetchIcs.body r with
    | FetchIcs.ContentBody content => ResponseOk content
    | FetchIcs.ErrorBody _ => ResponseBadContent typeError
    end
  else
    match FetchIcs.body r with
    | FetchIcs.ErrorBody e => ResponseNotOk e
    | FetchIcs.ContentBody _ => ResponseNotOk []
    end.

(** What the page's own awaited steps come to: the fetch of the route or
    the reading of the answer's JSON rejects with a thrown value (the
    network fails, the answer is not the route's JSON), or the route's
    answer reaches the page. *)
Inductive Delivery :=
| PageFetchRejects (thrown : Thrown)
| Delivered.

(** An import by URL carried by the route: the page posts the URL it uses,
    the route fetches it, and the answer is delivered to the page or not. *)
Definition importThroughRoute (typeError : str) (delivery : Delivery)
    (fetch : str -> FetchIcs.Upstream) (urlToFetch : str) : Handler unit :=
  st <- get ;;
  handleUrlImport urlToFetch
    match delivery with
    | PageFetchRejects thrown => FetchRejects thrown
    | Delivered =>
        outcome_of_response typeError
          (FetchIcs.POST (FetchIcs.BodyJson (or_else urlToFetch (url st)))
             fetch)
    end.

(** X9. The route answers 200 exactly when the body names a URL, the fetch
    of that URL resolves with ok and its text can be read, and the content
    is then that text unchanged; it answers 400 exactly when the body names
    no URL; every other case is a 500 whose error is the fixed text, so the
    upstream status text never reaches the client. *)
Theorem fetch_ics_answers (request : FetchIcs.RequestBody)
    (fetch : str -> FetchIcs.Upstream) :
  let r := FetchIcs.POST request fetch in
  (FetchIcs.status r = 200%Z \/ FetchIcs.status r = 400%Z
   \/ FetchIcs.status r = 500%Z) /\
  (FetchIcs.status r = 200%Z <->
   exists url statusText content,
     request = FetchIcs.BodyJson url /\ url <> [] /\
     fetch url = FetchIcs.UpstreamResponse true statusText (Some content) /\
     FetchIcs.body r = FetchIcs.ContentBody content) /\
  (FetchIcs.status r = 400%Z <-> request = FetchIcs.BodyJson []) /\
  (FetchIcs.status r = 400%Z ->
   FetchIcs.body r = FetchIcs.ErrorBody (lit "URL is required")) /\
  (FetchIcs.status r = 500%Z ->
   FetchIcs.body r = FetchIcs.ErrorBody (lit "Failed to fetch ICS file")).
Proof.
  cbv zeta. unfold FetchIcs.POST, FetchIcs.attempt.
  destruct request as [|[|c url]].
  - cbn. repeat split; auto; try discriminate.
    intros (? & ? & ? & ? & _); discriminate.
  - cbn. repeat split; auto; try discriminate.
    intros (? & ? & ? & [= <-] & H & _). now destruct H.
  - destruct (fetch (c :: url)) as [|[|] statusText [content|]] eqn:E; cbn;
      repeat split; auto; try discriminate;
      try (intros (? & ? & ? & [= <-] & _ & H & _); congruence).
    intros _. exists (c :: url), statusText, content.
    repeat split; auto. discriminate.
Qed.

(** X10. Page and route together, for an import with a URL to use.  When
    the route's answer reaches the page: if the upstream fetch resolves with
    ok and a readable text, the events become the parse of that text and the
    error is empty; in every other case the events stay as they were and the
    error is the route's fixed text.  When the page's own fetch, or the
    reading of the answer, rejects: the events stay as they were and the
    error is the message of the thrown Error, or the page's fixed text for
    any other thrown value.  In all cases loading ends false, and the route
    never answers 400 to the page. *)
Theorem import_through_route (typeError : str) (delivery : Delivery)
    (fetch : str -> FetchIcs.Upstream) (urlToFetch : str) (st : State) :
  or_else urlToFetch (url st) <> [] ->
  let st' := after (importThroughRoute typeError delivery fetch urlToFetch) st in
  let answer :=
    FetchIcs.POST (FetchIcs.BodyJson (or_else urlToFetch (url st))) fetch in
  loading st' = false /\
  FetchIcs.status answer <> 400%Z /\
  (delivery = Delivered ->
   (forall statusText content,
      fetch (or_else urlToFetch (url st))
        = FetchIcs.UpstreamResponse true statusText (Some content) ->
      events st' = parseICS content /\ error st' = []) /\
   ((forall statusText content,
       fetch (or_else urlToFetch (url st))
         <> FetchIcs.UpstreamResponse true statusText (Some content)) ->
    events st' = events st /\ error st' = lit "Failed to fetch ICS file")) /\
  (forall thrown,
     delivery = PageFetchRejects thrown ->
     events st' = events st /\
     error st'
     = match thrown with
       | ErrorObject message => message
       | OtherValue => lit "Failed to import calendar"
       end).
Proof.
  intros Hurl. cbv zeta.
  unfold after, importThroughRoute, handleUrlImport, bind, get.
  unfold FetchIcs.POST, FetchIcs.attempt.
  destruct (or_else urlToFetch (url st)) as [|c u] eqn:E; [contradiction|].
  destruct delivery as [t|].
  - split; [now destruct t|].
    split; [now destruct (fetch (c :: u)) as [|[|] statusText [content|]]|].
    split; [discriminate|].
    intros thrown [= <-]. now destruct t.
  - destruct (fetch (c :: u)) as [|[|] statusText [content|]] eqn:Ef;
      cbn -[parseICS];
      (split; [reflexivity|]); (split; [discriminate|]);
      (split; [|discriminate]); intros _; split;
      try (intros s0 c0 [=]; subst; split; reflexivity);
      try (intros _; split; reflexivity).
    intros H. now destruct (H statusText content).
Qed.

(** X10 at an upstream that answers 404, the answer delivered: the events
    stay, the error is the route's text; and at a page whose fetch of the
    route fails with a TypeError: the events stay, the error is its
    message. *)
Lemma import_through_route_witness :
  (events
     (after
        (importThroughRoute [] Delivered
           (fun _ => FetchIcs.UpstreamResponse false (lit "Not Found") None)
           (lit "https://example.org/a.ics"))
        first_render) = [] /\
   error
     (after
        (importThroughRoute [] Delivered
           (fun _ => FetchIcs.UpstreamResponse false (lit "Not Found") None)
           (lit "https://example.org/a.ics"))
        first_render) = lit "Failed to fetch ICS file") /\
  (events
     (after
        (importThroughRoute []
           (PageFetchRejects (ErrorObject (lit "Failed to fetch")))
           (fun _ => FetchIcs.UpstreamResponse true (lit "OK") (Some []))
           (lit "https://example.org/a.ics"))
        first_render) = [] /\
   error
     (after
        (importThroughRoute []
           (PageFetchRejects (ErrorObject (lit "Failed to fetch")))
           (fun _ => FetchIcs.UpstreamResponse true (lit "OK") (Some []))
           (lit "https://example.org/a.ics"))
        first_render) = lit "Failed to fetch").
Proof.
  split.
  - refine (proj2 (proj1 (proj2 (proj2
      (@import_through_route [] Delivered
         (fun _ => FetchIcs.UpstreamResponse false (lit "Not Found") None)
         (lit "https://example.org/a.ics") first_render _))) eq_refl) _);
      discriminate.
  - refine (proj2 (proj2 (proj2
      (@import_through_route []
         (PageFetchRejects (ErrorObject (lit "Failed to fetch")))
         (fun _ => FetchIcs.UpstreamResponse true (lit "OK") (Some []))
         (lit "https://example.org/a.ics") first_render _))) _ eq_refl).
    discriminate.
Defined.

(** ** The Google callback route (google-callback/route.ts) *)

Module GoogleCallback.

(** What a fetch followed by [json()] comes to: a rejection with the
    message of its Error, or a body with the response's ok flag, the body's
    error field as text (empty when there is none) and its access_token
    field. *)
Inductive JsonResponse :=
| JsonRejects (message : str)
| JsonBody (ok : bool) (errorField : str) (access_token : str).

(** A redirect, with the value of the google_access_token cookie when one
    is set. *)
Record Redirect := mkRedirect { target : str; cookie : option str }.

(** The try block.  [calendars] is the calendar-list request, made with the
    bearer token it is given. *)
Definition attempt (token : JsonResponse) (calendars : str -> JsonResponse)
    : str + Redirect :=
  match token with
  | JsonRejects message => inl message
  | JsonBody ok errorField access_token =>
      if negb ok then
        inl (or_else errorField (lit "Failed to exchange code for tokens"))
      else
        match calendars access_token with
        | JsonRejects message => inl message
        | JsonBody ok' errorField' _ =>
            if negb ok' then
              inl (or_else errorField' (lit "Failed to fetch calendars"))
            else inr (mkRedirect (lit "/") (Some access_token))
        end
  end.

(** [GET]; [code] is empty when the query has no code or an empty one. *)
Definition GET (encodeURIComponent : str -> str) (code : str)
    (token : JsonResponse) (calendars : str -> JsonResponse) : Redirect :=
  match code with
  | [] => mkRedirect (lit "/?error=no_code") None
  | _ =>
      match attempt token calendars with
      | inr redirect => redirect
      | inl message =>
          mkRedirect (lit "/?error=" ++ encodeURIComponent message) None
      end
  end.

End GoogleCallback.

(** X11. The callback sets the access-token cookie exactly when there is a
    code, the token exchange answers ok and the calendar list, asked with
    the token just received, answers ok too; the cookie then holds that
    token and the redirect goes to the root.  In every other case no cookie
    is set and the redirect carries an error; without a code it is
    no_code, whatever the two requests would answer. *)
Theorem callback_cookie_only_on_success (encodeURIComponent : str -> str)
    (code : str) (token : GoogleCallback.JsonResponse)
    (calendars : str -> GoogleCallback.JsonResponse) :
  let r := GoogleCallback.GET encodeURIComponent code token calendars in
  (forall v,
     GoogleCallback.cookie r = Some v <->
     code <> [] /\
     exists e e' t,
       token = GoogleCallback.JsonBody true e v /\
       calendars v = GoogleCallback.JsonBody true e' t) /\
  (GoogleCallback.cookie r <> None -> GoogleCallback.target r = lit "/") /\
  (GoogleCallback.cookie r = None ->
   exists reason, GoogleCallback.target r = lit "/?error=" ++ reason) /\
  (code = [] -> r = GoogleCallback.mkRedirect (lit "/?error=no_code") None).
Proof.
  cbv zeta. unfold GoogleCallback.GET, GoogleCallback.attempt.
  destruct code as [|c code];
    [|destruct token as [message|[|] e v];
      [| destruct (calendars v) as [message|[|] e' t] eqn:Ec |]];
    cbn; (split; [|split; [|split]]);
    try (intros H; first [reflexivity | discriminate H | now destruct H
                         | eexists; reflexivity]);
    intros v0; (split;
      [ intros H;
        first [ discriminate H
              | injection H as <-; split;
                [discriminate | do 3 eexists; split; [reflexivity | exact Ec]] ]
      | intros (Hc & e0 & e1 & t0 & Ht & Hcal);
        first [ now destruct Hc
              | discriminate Ht
              | injection Ht as <- <-; rewrite Ec in Hcal;
                first [discriminate Hcal | reflexivity] ] ]).
Qed.

(** ** The calendar grid (page.tsx lines 633-692) *)

(** A cell of the grid: a blank before the first day, or a day with the
    events listed in it. *)
Inductive Cell :=
| EmptyCell (i : nat)
| DayCell (day : nat) (dayEvents : list Event).

Definition cell_events (c : Cell) : list Event :=
  match c with
  | EmptyCell _ => []
  | DayCell _ evs => evs
  end.

Section Grid.

(** The engine: the time value of a date text and the local day of the
    month of a time value, [None] for NaN. *)
Variable Date_parse : str -> float.
Variable getDate : float -> option Z.

(** The filter of one day cell: the strict equality is false on NaN. *)
Definition dayEvents (monthEvents : list Event) (day : nat) : list Event :=
  filter
    (fun event =>
       let eventDate := Date_parse (start event) in
       match getDate eventDate with
       | Some d => Z.eqb d (Z.of_nat day)
       | None => false
       end)
    monthEvents.

(** The two loops that fill [days].  [startingDay] is the weekday of the
    first day and [totalDays] the day number of the last day of the month
    of [currentMonthKey], which is the key of today's month. *)
Definition calendarDays (startingDay totalDays : nat)
    (monthEvents : list Event) : list Cell :=
  let days :=
    fold_left (fun days i => days ++ [EmptyCell i]) (seq 0 startingDay) [] in
  fold_left
    (fun days day => days ++ [DayCell day (dayEvents monthEvents day)])
    (seq 1 totalDays) days.

Lemma calendarDays_eq (startingDay totalDays : nat) (monthEvents : list Event) :
  calendarDays startingDay totalDays monthEvents
  = List.map EmptyCell (seq 0 startingDay)
      ++ List.map (fun day => DayCell day (dayEvents monthEvents day))
           (seq 1 totalDays).
Proof. unfold calendarDays. now rewrite !push_loop_map. Qed.

(** X12. The grid has one cell per blank and per day of today's month, the
    day cells in order after the blanks.  An event of the displayed bucket
    is listed in the cell of day d exactly when the day of the month of its
    start is d, so it is listed at most once, and an event whose day is
    missing (an invalid date) or greater than the number of days of today's
    month is listed nowhere. *)
Theorem calendar_grid_cells (startingDay totalDays : nat)
    (monthEvents : list Event) :
  let days := calendarDays startingDay totalDays monthEvents in
  length days = startingDay + totalDays /\
  (forall i, i < startingDay -> nth_error days i = Some (EmptyCell i)) /\
  (forall d, 1 <= d <= totalDays ->
     nth_error days (startingDay + d - 1)
     = Some (DayCell d (dayEvents monthEvents d))) /\
  (forall e d,
     In e (dayEvents monthEvents d) <->
     In e monthEvents /\ getDate (Date_parse (start e)) = Some (Z.of_nat d)) /\
  (forall e,
     In e (flat_map cell_events days) <->
     In e monthEvents /\
     exists d, 1 <= d <= totalDays /\
       getDate (Date_parse (start e)) = Some (Z.of_nat d)).
Proof.
  cbv zeta. rewrite calendarDays_eq.
  assert (Hday : forall e d,
            In e (dayEvents monthEvents d) <->
            In e monthEvents /\
            getDate (Date_parse (start e)) = Some (Z.of_nat d)).
  { intros e d. unfold dayEvents. rewrite filter_In. cbv zeta.
    destruct (getDate (Date_parse (start e))) as [z|].
    - rewrite Z.eqb_eq. split; intros [H1 H2]; split; congruence.
    - split; intros [H1 H2]; discriminate. }
  split; [now rewrite length_app, !length_map, !length_seq|].
  split; [|split; [|split; [exact Hday|]]].
  - intros i Hi. rewrite nth_error_app1 by now rewrite length_map, length_seq.
    rewrite nth_error_map, nth_error_seq.
    destruct (Nat.ltb_spec i startingDay); [reflexivity | lia].
  - intros d Hd. rewrite nth_error_app2 by (rewrite length_map, length_seq; lia).
    rewrite length_map, length_seq, nth_error_map, nth_error_seq.
    destruct (Nat.ltb_spec (startingDay + d - 1 - startingDay) totalDays); [|lia].
    cbn [option_map]. do 3 f_equal; lia.
  - intros e. rewrite flat_map_app, in_app_iff, !in_flat_map. split.
    + intros [(c & Hc & He) | (c & Hc & He)].
      * apply in_map_iff in Hc as (i & <- & _). destruct He.
      * apply in_map_iff in Hc as (d & <- & Hd). apply in_seq in Hd.
        cbn [cell_events] in He. apply Hday in He as [H1 H2].
        split; [exact H1|]. exists d. split; [lia | exact H2].
    + intros (H1 & d & Hd & H2). right.
      exists (DayCell d (dayEvents monthEvents d)). split.
      * apply in_map_iff. exists d. split; [reflexivity|]. apply in_seq. lia.
      * cbn [cell_events]. apply Hday. auto.
Qed.

End Grid.

(** ** The details panes and the clicks that look for them
    (page.tsx lines 669-701) *)

(** The id template: description, the start text, the position. *)
Definition detailsId (start : str) (index : nat) : str :=
  lit "description-" ++ start ++ lit "-" ++ numberToString (Some (Z.of_nat index)).

(** The ids of the panes, one per event of the bucket, in document order;
    the position counts from [i]. *)
Fixpoint detailsIds_from (i : nat) (monthEvents : list Event) : list str :=
  match monthEvents with
  | [] => []
  | event :: rest => detailsId (start event) i :: detailsIds_from (S i) rest
  end.

(** [document.getElementById(id)]: the first element with the id, here by
    its position among the panes, which are the only elements with an id. *)
Fixpoint getElementById_from (i : nat) (ids : list str) (id : str) : option nat :=
  match ids with
  | [] => None
  | x :: rest =>
      if str_eqb x id then Some i else getElementById_from (S i) rest id
  end.

(** The pane a click on an event of a day cell toggles: the id is built
    from the event's start and its position in the list of that day. *)
Definition clickedPane (monthEvents : list Event) (event : Event)
    (indexInDay : nat) : option nat :=
  getElementById_from 0 (detailsIds_from 0 monthEvents)
    (detailsId (start event) indexInDay).

From Stdlib Require DecimalPos DecimalZ.

Section DetailsFacts.

Lemma lit_inj (a b : string) : lit a = lit b -> a = b.
Proof.
  unfold lit. intros H.
  rewrite <- (string_of_list_ascii_of_string a),
    <- (string_of_list_ascii_of_string b).
  f_equal. revert H.
  generalize (list_ascii_of_string a) (list_ascii_of_string b).
  induction l as [|x l IH]; intros [|y l'] H; try discriminate H; [reflexivity|].
  cbn [List.map] in H. injection H as Hxy H.
  f_equal; [|now apply IH].
  rewrite <- (ascii_N_embedding x), <- (ascii_N_embedding y). now f_equal.
Qed.

Lemma numberToString_inj (z z' : Z) :
  numberToString (Some z) = numberToString (Some z') -> z = z'.
Proof.
  unfold numberToString. intros H. apply lit_inj in H.
  assert (Hn : forall z, Z.to_int z <> Decimal.Pos Decimal.Nil /\
                         Z.to_int z <> Decimal.Neg Decimal.Nil).
  { intros [|p|p]; cbn; split; try discriminate;
      intros [= E]; now apply DecimalPos.Unsigned.to_uint_nonnil in E. }
  apply (f_equal NilZero.int_of_string) in H.
  rewrite !NilZero.isi in H by apply Hn.
  injection H as H. apply (f_equal Z.of_int) in H.
  now rewrite !DecimalZ.of_to in H.
Qed.

Lemma digits_no_hyphen (d : Decimal.uint) :
  ~ In 45%N (lit (NilEmpty.string_of_uint d)).
Proof.
  induction d; cbn; [intros [] | ..]; intros [H|H]; try discriminate H; auto.
Qed.

Lemma index_no_hyphen (n : nat) :
  ~ In 45%N (numberToString (Some (Z.of_nat n))).
Proof.
  unfold numberToString. destruct (Z.of_nat n) as [|p|p] eqn:E; try lia.
  - cbn. intros [H|[]]. discriminate H.
  - cbn [Z.to_int NilZero.string_of_int NilZero.string_of_uint].
    destruct (Pos.to_uint p) eqn:Ep; try apply digits_no_hyphen.
    now apply DecimalPos.Unsigned.to_uint_nonnil in Ep.
Qed.

(** The last hyphen of an id separates the start from the position. *)
Lemma last_hyphen_split (s s' x x' : str) :
  ~ In 45%N x -> ~ In 45%N x' ->
  s ++ 45%N :: x = s' ++ 45%N :: x' -> s = s' /\ x = x'.
Proof.
  intros Hx Hx'. revert s'; induction s as [|c s IH]; intros [|c' s'] H.
  - now injection H.
  - cbn [app] in H. injection H as <- H. exfalso. apply Hx. rewrite H.
    apply in_or_app. right. now left.
  - cbn [app] in H. injection H as Hc H. subst c. exfalso. apply Hx'.
    rewrite <- H. apply in_or_app. right. now left.
  - cbn [app] in H. injection H as <- H. apply IH in H as [-> ->]. auto.
Qed.

Lemma detailsId_inj (s s' : str) (i i' : nat) :
  detailsId s i = detailsId s' i' -> s = s' /\ i = i'.
Proof.
  unfold detailsId. intros H. apply app_inv_head in H.
  apply last_hyphen_split in H as [-> H]; try apply index_no_hyphen.
  apply numberToString_inj in H. split; [reflexivity | lia].
Qed.

Lemma detailsId_eqb (s s' : str) (i i' : nat) :
  str_eqb (detailsId s i) (detailsId s' i') = str_eqb s s' && Nat.eqb i i'.
Proof.
  destruct (str_eqb (detailsId s i) (detailsId s' i')) eqn:E.
  - apply str_eqb_eq, detailsId_inj in E as [-> ->].
    now rewrite str_eqb_refl, Nat.eqb_refl.
  - destruct (str_eqb s s') eqn:Es; [|reflexivity].
    destruct (Nat.eqb_spec i i') as [->|]; [|reflexivity].
    apply str_eqb_eq in Es as ->. now rewrite str_eqb_refl in E.
Qed.

Lemma getElementById_past (i index : nat) (s : str) (monthEvents : list Event) :
  index < i ->
  getElementById_from i (detailsIds_from i monthEvents) (detailsId s index) = None.
Proof.
  revert i; induction monthEvents as [|e l IH]; intros i Hi; [reflexivity|].
  cbn [detailsIds_from getElementById_from]. rewrite detailsId_eqb.
  destruct (Nat.eqb_spec i index); [lia|].
  rewrite andb_false_r. apply IH. lia.
Qed.

Lemma getElementById_details (i index : nat) (s : str) (monthEvents : list Event) :
  i <= index ->
  getElementById_from i (detailsIds_from i monthEvents) (detailsId s index)
  = match nth_error monthEvents (index - i) with
    | Some e => if str_eqb (start e) s then Some index else None
    | None => None
    end.
Proof.
  revert i; induction monthEvents as [|e l IH]; intros i Hi.
  - now destruct (index - i).
  - cbn [detailsIds_from getElementById_from]. rewrite detailsId_eqb.
    destruct (Nat.eqb_spec i index) as [->|Hne].
    + rewrite Nat.sub_diag. cbn [nth_error]. rewrite andb_true_r.
      destruct (str_eqb (start e) s); [reflexivity|].
      apply getElementById_past. lia.
    + rewrite andb_false_r, IH by lia.
      replace (index - i) with (S (index - S i)) by lia. reflexivity.
Qed.

End DetailsFacts.

(** X13. A click on an event of a day cell looks for the pane whose id is
    made of the event's start text and the event's position within that
    day, while the panes are numbered by position within the bucket.  So
    the click toggles the pane of the bucket's event at that same position
    when that event has the same start text, and no pane otherwise; two
    panes never share an id. *)
Theorem click_finds_pane_by_day_position (monthEvents : list Event)
    (event : Event) (indexInDay : nat) :
  clickedPane monthEvents event indexInDay
  = match nth_error monthEvents indexInDay with
    | Some e => if str_eqb (start e) (start event) then Some indexInDay else None
    | None => None
    end /\
  NoDup (detailsIds_from 0 monthEvents) /\
  (forall s s' i i', detailsId s i = detailsId s' i' -> s = s' /\ i = i').
Proof.
  split; [|split; [|apply detailsId_inj]].
  - unfold clickedPane. rewrite getElementById_details by lia.
    now rewrite Nat.sub_0_r.
  - generalize 0 as i. induction monthEvents as [|e l IH]; intros i;
      cbn [detailsIds_from]; constructor; [|apply IH].
    intros Hin.
    assert (Hge : forall j l', In (detailsId (start e) i) (detailsIds_from j l') ->
                    j <= i).
    { clear. intros j l'. revert j. induction l' as [|e' l' IH']; intros j;
        cbn [detailsIds_from In]; [contradiction|].
      intros [H|H]; [apply detailsId_inj in H as [_ ->]; lia|].
      apply IH' in H. lia. }
    apply Hge in Hin. lia.
Qed.

(** ** Reading the saved URL from the cookie string (page.tsx lines 65-77) *)

(** [s.split(sep)] for a non-empty separator: the pieces between the
    occurrences of [sep], found from left to right.  The first occurrence is
    found as the lazy group finds it; every cut consumes input, so a fuel of
    the length plus one is never used up ([split_eq] below). *)
Fixpoint split_from (fuel : nat) (sep s : str) : list str :=
  match fuel with
  | O => [s]
  | S fuel' =>
      match lazy_any (lit_at sep) s with
      | Some (piece, rest) => piece :: split_from fuel' sep rest
      | None => [s]
      end
  end.

Definition split (sep s : str) : list str := split_from (S (length s)) sep s.

(** [s.startsWith(p)]. *)
Definition startsWith (p s : str) : bool :=
  match lit_at p s with Some _ => true | None => false end.

(** The chain of the effect: split the cookie string into rows, find the
    first row that starts with the name, split it at the equals signs and
    take element 1; [None] is undefined. *)
Definition savedUrl (cookie : str) : option str :=
  match find (startsWith (lit "calendar_url=")) (split (lit "; ") cookie) with
  | Some row => nth_error (split (lit "=") row) 1
  | None => None
  end.

Section CookieFacts.

Lemma lazy_any_shorter (sep s piece rest : str) :
  sep <> [] -> lazy_any (lit_at sep) s = Some (piece, rest) ->
  length rest < length s.
Proof.
  intros Hsep H. apply lazy_any_sound in H as (mid & -> & H).
  apply lit_at_sound in H as ->. rewrite !length_app.
  destruct sep; [congruence | cbn; lia].
Qed.

Lemma split_from_stable (n m : nat) (sep s : str) :
  sep <> [] -> length s < n -> length s < m ->
  split_from n sep s = split_from m sep s.
Proof.
  intros Hsep. revert m s; induction n as [|n IH]; intros [|m] s Hn Hm; try lia.
  cbn [split_from].
  destruct (lazy_any (lit_at sep) s) as [[piece rest]|] eqn:E; [|reflexivity].
  apply lazy_any_shorter in E; [|exact Hsep]. f_equal. apply IH; lia.
Qed.

(** The loop of [split], unrolled once. *)
Lemma split_eq (sep s : str) :
  sep <> [] ->
  split sep s
  = match lazy_any (lit_at sep) s with
    | Some (piece, rest) => piece :: split sep rest
    | None => [s]
    end.
Proof.
  intros Hsep. unfold split at 1. cbn [split_from].
  destruct (lazy_any (lit_at sep) s) as [[piece rest]|] eqn:E; [|reflexivity].
  apply lazy_any_shorter in E; [|exact Hsep].
  f_equal. apply split_from_stable; [exact Hsep | lia | lia].
Qed.

(** A piece that does not hold the first code unit of the separator is cut
    at its end. *)
Lemma cut_after_piece (c : char) (sep piece rest : str) :
  ~ In c piece ->
  lazy_any (lit_at (c :: sep)) (piece ++ (c :: sep) ++ rest) = Some (piece, rest).
Proof.
  intros H. apply lazy_any_first; [|apply lit_at_complete].
  intros a [|d b] -> Hb; [now destruct Hb|].
  cbn [app lit_at]. destruct (N.eqb_spec c d) as [->|]; [|reflexivity].
  exfalso. apply H, in_or_app. right. now left.
Qed.

Lemma no_cut (c : char) (sep s : str) :
  ~ In c s -> lazy_any (lit_at (c :: sep)) s = None.
Proof.
  intros H. apply lazy_any_none. induction s as [|d s IH]; [reflexivity|].
  cbn [search lit_at]. destruct (N.eqb_spec c d) as [->|].
  - exfalso. apply H. now left.
  - apply IH. intros Hin. apply H. now right.
Qed.

Lemma split_join (c : char) (sep : str) (rows : list str) :
  rows <> [] -> Forall (fun r => ~ In c r) rows ->
  split (c :: sep) (join (c :: sep) rows) = rows.
Proof.
  intros Hne Hrows. revert Hne.
  induction Hrows as [|r rows Hr Hrows IH]; intros Hne; [now destruct Hne|].
  rewrite split_eq by discriminate. rewrite join_cons.
  destruct rows as [|r' rows].
  - rewrite app_nil_r, no_cut by exact Hr. reflexivity.
  - rewrite cut_after_piece by exact Hr. f_equal. apply IH. discriminate.
Qed.

Lemma value_of_row (v1 rest : str) :
  ~ In 61%N v1 ->
  (rest = [] \/ exists rest', rest = 61%N :: rest') ->
  nth_error (split (lit "=") (lit "calendar_url=" ++ v1 ++ rest)) 1 = Some v1.
Proof.
  intros Hv Hrest. rewrite split_eq by discriminate.
  change (lit "calendar_url=" ++ v1 ++ rest)
    with (lit "calendar_url" ++ lit "=" ++ v1 ++ rest).
  change (lit "=") with [61%N].
  rewrite cut_after_piece by (cbn; intuition discriminate).
  cbn [nth_error]. rewrite split_eq by discriminate.
  destruct Hrest as [->|(rest' & ->)].
  - rewrite app_nil_r, no_cut by exact Hv. reflexivity.
  - change (v1 ++ 61%N :: rest') with (v1 ++ [61%N] ++ rest').
    rewrite cut_after_piece by exact Hv. reflexivity.
Qed.

End CookieFacts.

(** X14. From a cookie string of rows joined by semicolon and space, none
    holding a semicolon, the effect reads the value of the first row that
    starts with calendar_url= up to the value's first equals sign: a value
    without an equals sign is read back whole, a value with one is cut
    there; with no such row nothing is read. *)
Theorem saved_url_read_back (before after : list str) (v1 rest : str) :
  Forall (fun r => ~ In 59%N r /\ startsWith (lit "calendar_url=") r = false)
    before ->
  Forall (fun r => ~ In 59%N r) after ->
  ~ In 59%N (v1 ++ rest) -> ~ In 61%N v1 ->
  (rest = [] \/ exists rest', rest = 61%N :: rest') ->
  savedUrl
    (join (lit "; ")
       (before ++ (lit "calendar_url=" ++ v1 ++ rest) :: after)) = Some v1 /\
  (before <> [] -> savedUrl (join (lit "; ") before) = None).
Proof.
  intros Hbefore Hafter Hsemi Heq Hrest.
  assert (Hfind : forall l,
            find (startsWith (lit "calendar_url=")) (before ++ l)
            = find (startsWith (lit "calendar_url=")) l).
  { intros l. clear -Hbefore. induction Hbefore as [|r rs [_ Hr] _ IH];
      [reflexivity|]. cbn [app find]. now rewrite Hr. }
  split.
  - unfold savedUrl. change (lit "; ") with (59%N :: [32%N]).
    rewrite split_join.
    + rewrite Hfind. cbn [find].
      change (startsWith (lit "calendar_url=") (lit "calendar_url=" ++ v1 ++ rest))
        with (match lit_at (lit "calendar_url=") (lit "calendar_url=" ++ v1 ++ rest)
              with Some _ => true | None => false end).
      rewrite lit_at_complete. now apply value_of_row.
    + now destruct before.
    + apply Forall_app. split.
      * eapply Forall_impl; [|exact Hbefore]. now intros r [H _].
      * constructor; [|exact Hafter].
        intros [H|H]%in_app_or; [|contradiction].
        cbn in H. intuition discriminate.
  - intros Hne. unfold savedUrl. change (lit "; ") with (59%N :: [32%N]).
    rewrite split_join.
    + specialize (Hfind []). rewrite app_nil_r in Hfind. now rewrite Hfind.
    + exact Hne.
    + eapply Forall_impl; [|exact Hbefore]. now intros r [H _].
Qed.

(** X14 at a cookie string with one other cookie before the saved URL. *)
Lemma saved_url_read_back_witness :
  savedUrl
    (join (lit "; ")
       ([lit "theme=dark"]
          ++ (lit "calendar_url=" ++ lit "https%3A%2F%2Fexample.org%2Fa.ics" ++ [])
          :: [])) = Some (lit "https%3A%2F%2Fexample.org%2Fa.ics").
Proof.
  refine (proj1 (@saved_url_read_back [lit "theme=dark"] []
                   (lit "https%3A%2F%2Fexample.org%2Fa.ics") [] _ _ _ _ _)).
  - repeat constructor. cbn. intuition discriminate.
  - constructor.
  - cbn. intuition discriminate.
  - cbn. intuition discriminate.
  - now left.
Defined.

(** ** An invalid date in a bucket (page.tsx lines 568-575, 598) *)

(** X15. One invalid date spoils the total of its bucket: when the start or
    the end of some event of the bucket parses to NaN, the total of hours is
    NaN, whatever the other events are.  On an engine that takes the empty
    text for an invalid date this is the case of every bucket that holds an
    event without a DTEND line, since its end is the empty text. *)
Theorem total_hours_nan (Date_parse : str -> float) (monthEvents : list Event)
    (event : Event) :
  In event monthEvents ->
  (PrimFloat.is_nan (Date_parse (start event)) = true \/
   PrimFloat.is_nan (Date_parse (end_ event)) = true ->
   PrimFloat.is_nan (totalHours Date_parse monthEvents) = true) /\
  (PrimFloat.is_nan (Date_parse []) = true ->
   (forall block,
      includes (lit "DTEND") block = false -> event = parseEvent block ->
      PrimFloat.is_nan (totalHours Date_parse monthEvents) = true)).
Proof.
  intros Hin.
  assert (Hmain : PrimFloat.is_nan (Date_parse (start event)) = true \/
                  PrimFloat.is_nan (Date_parse (end_ event)) = true ->
                  PrimFloat.is_nan (totalHours Date_parse monthEvents) = true).
  { intros Hnan. rewrite totalHours_eq.
    assert (Hh : PrimFloat.is_nan (hours Date_parse event) = true).
    { unfold hours. apply div_nan, sub_nan. tauto. }
    assert (Hkeep : forall l a, PrimFloat.is_nan a = true ->
              PrimFloat.is_nan
                (fold_left (fun acc ev => (acc + hours Date_parse ev)%float) l a)
              = true).
    { induction l as [|x l IH]; intros a Ha; [exact Ha|].
      cbn [fold_left]. apply IH, add_nan. now left. }
    generalize 0%float as a. revert Hin.
    induction monthEvents as [|x l IH]; intros Hin a; [contradiction|].
    cbn [fold_left]. destruct Hin as [->|Hin].
    - apply Hkeep, add_nan. now right.
    - now apply IH. }
  split; [exact Hmain|].
  intros Hempty block Hno ->. apply Hmain. right.
  destruct (parseEvent_fields block) as (_ & _ & -> & _).
  unfold endRegex. now rewrite date_absent.
Qed.

(** X15 on the sample engine: an event with a date that is no date. *)
Lemma total_hours_nan_witness :
  PrimFloat.is_nan
    (totalHours SampleEngine.Date_parse
       [mkEvent (lit "a") (lit "2024-03-10 09:00") (lit "2024-03-10 10:00")
          None None;
        mkEvent (lit "b") (lit "2024-03-11 09:00") [] None None]) = true.
Proof.
  refine (proj1 (@total_hours_nan SampleEngine.Date_parse _
                   (mkEvent (lit "b") (lit "2024-03-11 09:00") [] None None) _) _).
  - right. now left.
  - right. reflexivity.
Defined.
